(** * hackforward: a pipelining DNS forwarder

    A shallow embedding of the pipelining engine of the [hackforward]
    CoreDNS plugin: the correlation cache ([SenderCache]), the
    per-connection multiplexer ([Pipe]) and the connection pool
    ([PipeDriverImpl]).

    Conventions of the embedding.
    - Go's [uint16] is a [Z] kept in [0, 2^16) with the wrap-around of
      [++] written out; Go's [int] and [time.Duration] are [Z] (all the
      counters of the driver stay within a few multiples of the pool limit
      of 50, far from the 64-bit range).
    - A Go map is a [gmap]; a slice is a [list].
    - Pointers that the code compares or stores ([*Pipe], [*Sender] and its
      channels) carry an address, allocated from a counter that is threaded
      through the allocating functions.
    - Every method that runs under a mutex is one atomic function on the
      protected state.  What other goroutines do while a method is blocked
      is an explicit argument of the embedded method.
    - Channel sends, sleeps and calls into collaborators are recorded, in
      program order, in an effect trace returned by the function.
    - A run-time panic (an index out of range) is the result [Panic]. *)

From Stdlib Require Import ZArith List Lia Bool Ascii.
From stdpp Require Import base gmap list strings.

Local Open Scope Z_scope.

(** ** Go basics *)

(** The value range of [uint16] and the wrap-around of its arithmetic. *)
Definition uint16_modulus : Z := 65536.

Definition uint16_wrap (z : Z) : Z := z mod uint16_modulus.

Definition is_uint16 (z : Z) : Prop := 0 <= z < uint16_modulus.

(** The error values of the program.  [writeNotReady] and [timeoutErr] are
    the two package-level sentinels; [errorsNew s] is an error made by
    [errors.New] at a call site; [external n] is an error handed back by a
    collaborator (the response writer of the host server).  None of them
    wraps another error, so [errors.Is] is identity of the error value. *)
Inductive error : Type :=
| writeNotReady
| timeoutErr
| errorsNew (s : string)
| external (n : nat).

#[global] Instance error_eq_dec : EqDecision error.
Proof. solve_decision. Defined.

Definition errors_Is (err target : error) : bool := bool_decide (err = target).

(** The outcome of a Go call: a normal return or a panic. *)
Inductive Result (A : Type) : Type :=
| Ok (a : A)
| Panic.
Arguments Ok {A} a.
Arguments Panic {A}.

(** [dns.Msg], as far as the program reads and writes it: the 16-bit
    message ID, the names of the question section and the records of the
    answer section (both only indexed at 0, for logging). *)
Record Msg : Type := mkMsg {
  Id : Z;
  Question : list string;
  Answer : list string
}.

Definition set_Id (m : Msg) (i : Z) : Msg :=
  {| Id := i; Question := Question m; Answer := Answer m |}.

#[global] Instance Msg_eq_dec : EqDecision Msg.
Proof. solve_decision. Defined.

(** ** The correlation cache *)

(** A channel is known by its address. *)
Definition chan : Type := nat.

Record Sender : Type := mkSender {
  responseChan : chan;
  errChan : chan
}.

#[global] Instance Sender_eq_dec : EqDecision Sender.
Proof. solve_decision. Defined.

Module SenderCache.

(** [SenderCache]: the map and the ID generator; [cacheLock] makes each
    method atomic and is not represented. *)
Record SenderCache : Type := mkSenderCache {
  cache : gmap Z Sender;
  msgIDGen : Z
}.

(** What [add] leaves behind and returns: the allocator, the cache, the
    message (whose ID it rewrote), and its two results. *)
Record AddResult : Type := mkAddResult {
  add_heap : nat;
  add_cache : SenderCache;
  add_msg : Msg;
  add_oldMsgId : Z;
  add_sender : Sender
}.

(** [func (c *SenderCache) add(msg *dns.Msg) (uint16, *Sender)].
    [heap] is the next free channel address; the two [make(chan ...)]
    take [heap] and [heap + 1]. *)
Definition add (heap : nat) (c : SenderCache) (msg : Msg) : AddResult :=
  let oldMsgId := Id msg in
  let gen := uint16_wrap (msgIDGen c + 1) in
  let msg' := set_Id msg gen in
  let s := {| responseChan := heap; errChan := S heap |} in
  {| add_heap := S (S heap);
     add_cache := {| cache := <[Id msg' := s]> (cache c); msgIDGen := gen |};
     add_msg := msg';
     add_oldMsgId := oldMsgId;
     add_sender := s |}.

(** [func (c *SenderCache) getAndRemove(id uint16) *Sender];
    [None] is the nil pointer. *)
Definition getAndRemove (c : SenderCache) (id : Z) : SenderCache * option Sender :=
  match cache c !! id with
  | None => (c, None)
  | Some sender =>
      ({| cache := delete id (cache c); msgIDGen := msgIDGen c |}, Some sender)
  end.

(** The cache of a new pipe: [SenderCache{cache: make(map[uint16]*Sender)}]. *)
Definition empty_cache : SenderCache := {| cache := ∅; msgIDGen := 0 |}.

End SenderCache.

(** ** The Go runtime, as far as the program observes it *)

(** [next_addr] is the next free address of the allocator; [pipeIDGen] is
    the package-level [atomic.Int32]; [rand_src] is the sequence of raw
    draws of the random source and [rand_pos] the number of draws made. *)
Record Runtime : Type := mkRuntime {
  next_addr : nat;
  pipeIDGen : Z;
  rand_src : nat -> nat;
  rand_pos : nat
}.

(** Two's-complement wrap-around of [int32], for [pipeIDGen.Add(1)]. *)
Definition int32_wrap (z : Z) : Z := (z + 2147483648) mod 4294967296 - 2147483648.

(** [time.Duration] counts nanoseconds. *)
Definition Millisecond : Z := 1000000.
Definition Second : Z := 1000 * Millisecond.

(** [rand.Intn(n)]: a draw in [0, n); panics when [n <= 0]. *)
Definition rand_Intn (rt : Runtime) (n : Z) : Result (Runtime * Z) :=
  if decide (n <= 0) then Panic
  else Ok ({| next_addr := next_addr rt; pipeIDGen := pipeIDGen rt;
              rand_src := rand_src rt; rand_pos := S (rand_pos rt) |},
           Z.of_nat (rand_src rt (rand_pos rt)) mod n).

(** [rand.IntnRange(min, max)] is [rand.Intn(max - min) + min]. *)
Definition rand_IntnRange (rt : Runtime) (min max : Z) : Result (Runtime * Z) :=
  match rand_Intn rt (max - min) with
  | Panic => Panic
  | Ok (rt', r) => Ok (rt', r + min)
  end.

(** An upstream endpoint (config.go). *)
Record ConnConfig : Type := mkConnConfig {
  Hostname : string;
  Port : Z
}.

(** ** The pipe *)

Module Pipe.

(** A [*Pipe]: the address of the object, with the two fields that
    [NewPipe] sets and nothing writes afterwards.  Two pointers are equal
    when their addresses are. *)
Record Ptr : Type := mkPtr {
  addr : nat;
  id : Z;
  primary : bool
}.

(** The state of a pipe.  [writeChan] is an unbuffered channel: the list
    holds, in arrival order, the messages that blocked senders are
    offering on it.  [doneR] and [doneW] tell whether the channel is
    closed.  The back reference [driver] is the one driver of the program
    and [conn] is the connection, whose operations are outcomes chosen by
    the environment. *)
Record Pipe : Type := mkPipe {
  this : Ptr;
  dialTimeout : Z;
  readTimeout : Z;
  writeTimeout : Z;
  finalizeTimeout : Z;
  writeChan : list Msg;
  writeReady : bool;
  reqTimeout : Z;
  doneR : bool;
  doneW : bool;
  cache : SenderCache.SenderCache
}.

Definition set_cache (p : Pipe) (c : SenderCache.SenderCache) : Pipe :=
  {| this := this p; dialTimeout := dialTimeout p; readTimeout := readTimeout p;
     writeTimeout := writeTimeout p; finalizeTimeout := finalizeTimeout p;
     writeChan := writeChan p; writeReady := writeReady p;
     reqTimeout := reqTimeout p; doneR := doneR p; doneW := doneW p;
     cache := c |}.

Definition set_writeChan (p : Pipe) (q : list Msg) : Pipe :=
  {| this := this p; dialTimeout := dialTimeout p; readTimeout := readTimeout p;
     writeTimeout := writeTimeout p; finalizeTimeout := finalizeTimeout p;
     writeChan := q; writeReady := writeReady p;
     reqTimeout := reqTimeout p; doneR := doneR p; doneW := doneW p;
     cache := cache p |}.


Definition set_doneW (p : Pipe) (b : bool) : Pipe :=
  {| this := this p; dialTimeout := dialTimeout p; readTimeout := readTimeout p;
     writeTimeout := writeTimeout p; finalizeTimeout := finalizeTimeout p;
     writeChan := writeChan p; writeReady := writeReady p;
     reqTimeout := reqTimeout p; doneR := doneR p; doneW := b;
     cache := cache p |}.

(** What a pipe does to the world outside its own state, in program
    order. *)
Inductive Effect : Type :=
| Send_errChan (c : chan) (e : error)        (* sender.errChan <- e *)
| Send_responseChan (c : chan) (m : Msg)     (* sender.responseChan <- m *)
| Recv_writeChan (m : Msg)                   (* m := <-p.writeChan *)
| Driver_removePipe (p : Ptr)                (* p.driver.removePipe(p) *)
| AfterFunc_safeClose_doneR (d : Z)          (* time.AfterFunc(d, safeClose(doneR)) *)
| Conn_WriteMsg (m : Msg).                   (* p.conn.WriteMsg(m) succeeded *)

(** [func NewPipe(driver PipeDriver, primary bool, config ConnConfig) *Pipe].
    The goroutine [p.initConn(config)] that it starts is recorded by the
    caller. *)
Definition NewPipe (rt : Runtime) (primary : bool) : Runtime * Pipe :=
  let g := int32_wrap (pipeIDGen rt + 1) in
  ({| next_addr := S (next_addr rt); pipeIDGen := g;
      rand_src := rand_src rt; rand_pos := rand_pos rt |},
   {| this := {| addr := next_addr rt; id := g; primary := primary |};
      dialTimeout := 1 * Second;
      readTimeout := 500 * Millisecond;
      writeTimeout := 5 * Millisecond;
      finalizeTimeout := 2 * Second;
      writeChan := [];
      writeReady := false;
      reqTimeout := Second;
      doneR := false;
      doneW := false;
      cache := SenderCache.empty_cache |}).

(** [func (p *Pipe) isWriteReady() bool] *)
Definition isWriteReady (p : Pipe) : bool := writeReady p.

(** [func (p *Pipe) setWriteReady(ready bool)] *)
Definition setWriteReady (p : Pipe) (ready : bool) : Pipe :=
  {| this := this p; dialTimeout := dialTimeout p; readTimeout := readTimeout p;
     writeTimeout := writeTimeout p; finalizeTimeout := finalizeTimeout p;
     writeChan := writeChan p; writeReady := ready;
     reqTimeout := reqTimeout p; doneR := doneR p; doneW := doneW p;
     cache := cache p |}.

(** The arm of the [select] in [process] that fires. *)
Inductive SelectArm : Type :=
| recv_responseChan (resp : Msg)     (* case resp := <-sender.responseChan *)
| recv_errChan (err : error)         (* case err := <-sender.errChan *)
| time_After.                        (* case <-time.After(p.reqTimeout) *)

(** What [process] leaves behind and returns.  [exit_msg] is the request
    message, which the caller still holds, as [process] left it. *)
Record Exit : Type := mkExit {
  exit_heap : nat;
  exit_pipe : Pipe;
  exit_msg : Msg;
  exit_resp : option Msg;
  exit_err : option error
}.

(** [func (p *Pipe) process(msg *dns.Msg)], returning a [*dns.Msg] and an [error].

    Once the request is registered in the cache the caller blocks: first
    offering [msg] on [writeChan], then in the [select].  [others] is what
    the other goroutines (writer, reader, other callers) do to the pipe in
    that time, which includes taking [msg] from [writeChan]; [arm] is the
    arm of the [select] that then fires.  The first log line indexes
    [msg.Question[0]] and the log line of the response arm indexes
    [resp.Answer[0]]. *)
Definition process (heap : nat) (p : Pipe) (msg : Msg)
    (others : Pipe -> Pipe) (arm : SelectArm) : Result Exit :=
  match Question msg with
  | [] => Panic
  | _ :: _ =>
    if negb (isWriteReady p) then
      Ok {| exit_heap := heap; exit_pipe := p; exit_msg := msg;
            exit_resp := None; exit_err := Some writeNotReady |}
    else
      let a := SenderCache.add heap (cache p) msg in
      let oldMsgID := SenderCache.add_oldMsgId a in
      let msg1 := SenderCache.add_msg a in
      let p1 := set_cache p (SenderCache.add_cache a) in
      let p2 := others (set_writeChan p1 (writeChan p1 ++ [msg1])) in
      match arm with
      | recv_responseChan resp =>
          match Answer resp with
          | [] => Panic
          | _ :: _ =>
              Ok {| exit_heap := SenderCache.add_heap a; exit_pipe := p2;
                    exit_msg := set_Id msg1 oldMsgID;
                    exit_resp := Some (set_Id resp oldMsgID);
                    exit_err := None |}
          end
      | recv_errChan err =>
          Ok {| exit_heap := SenderCache.add_heap a; exit_pipe := p2;
                exit_msg := set_Id msg1 oldMsgID;
                exit_resp := None; exit_err := Some err |}
      | time_After =>
          let '(c, _) := SenderCache.getAndRemove (cache p2) (Id msg1) in
          Ok {| exit_heap := SenderCache.add_heap a; exit_pipe := set_cache p2 c;
                exit_msg := msg1;
                exit_resp := None; exit_err := Some timeoutErr |}
      end
  end.

(** [func safeClose(ch chan struct{})]: closes the channel unless it is
    closed already. *)
Definition safeClose (closed : bool) : bool := if closed then closed else true.

(** The body of [resurrectReqs]: every message on offer is received; the
    Sender found under its ID, if any, is sent [writeNotReady]. *)
Fixpoint resurrect (c : SenderCache.SenderCache) (queue : list Msg)
    : SenderCache.SenderCache * list Effect :=
  match queue with
  | [] => (c, [])
  | req :: queue' =>
      let '(c1, sender) := SenderCache.getAndRemove c (Id req) in
      let '(c2, tr) := resurrect c1 queue' in
      (c2, Recv_writeChan req ::
           match sender with
           | Some s => Send_errChan (errChan s) writeNotReady :: tr
           | None => tr
           end)
  end.

(** [func (p *Pipe) resurrectReqs()] *)
Definition resurrectReqs (p : Pipe) : Pipe * list Effect :=
  let '(c, tr) := resurrect (cache p) (writeChan p) in
  (set_writeChan (set_cache p c) [], tr).

(** [func (p *Pipe) closeWriteLoop(req *dns.Msg)] *)
Definition closeWriteLoop (p : Pipe) (req : Msg) : Pipe * list Effect :=
  let p1 := setWriteReady p false in
  let p2 := set_doneW p1 (safeClose (doneW p1)) in
  let '(c, sender) := SenderCache.getAndRemove (cache p2) (Id req) in
  let p3 := set_cache p2 c in
  let '(p4, tr) := resurrectReqs p3 in
  (p4, Driver_removePipe (this p) ::
       AfterFunc_safeClose_doneR (finalizeTimeout p) ::
       match sender with
       | Some s => Send_errChan (errChan s) writeNotReady :: tr
       | None => tr
       end).


(** What the connection does to the request the writer took. *)
Inductive WriteOutcome : Type :=
| deadline_failed      (* SetWriteDeadline returned an error *)
| write_failed         (* WriteMsg returned an error *)
| write_ok.

(** One turn of the [for] of [writeLoop] in which the arm
    [case req := <-p.writeChan] fires: [None] when nothing is on offer.
    The boolean tells whether the loop goes on. *)
Definition writeLoop_recv (p : Pipe) (o : WriteOutcome)
    : option (Pipe * list Effect * bool) :=
  match writeChan p with
  | [] => None
  | req :: queue =>
      let p1 := set_writeChan p queue in
      match o with
      | deadline_failed | write_failed =>
          let '(p2, tr) := closeWriteLoop p1 req in
          Some (p2, Recv_writeChan req :: tr, false)
      | write_ok => Some (p1, [Recv_writeChan req; Conn_WriteMsg req], true)
      end
  end.

(** One turn of the [for] of [readLoop] in which [ReadMsg] returns the
    response [resp]. *)
Definition readLoop_recv (p : Pipe) (resp : Msg) : Pipe * list Effect :=
  let '(c, sender) := SenderCache.getAndRemove (cache p) (Id resp) in
  (set_cache p c,
   match sender with
   | Some s => [Send_responseChan (responseChan s) resp]
   | None => []
   end).

End Pipe.

(** ** The pipe driver *)

Module PipeDriverImpl.

Definition PRIMARY_PIPES_MAX : Z := 50.
Definition SECONDARY_PIPES_MAX : Z := 50.

(** [dns.RcodeSuccess] and [dns.RcodeServerFailure]. *)
Definition RcodeSuccess : Z := 0.
Definition RcodeServerFailure : Z := 2.

(** The driver.  [pipes] is guarded by [pipesLock] and the two loading
    counters by [loadingLock]; the locks are not represented. *)
Record PipeDriverImpl : Type := mkPipeDriverImpl {
  upstreams : list ConnConfig;
  primaryLimit : Z;
  secondaryLimit : Z;
  pipes : list Pipe.Ptr;
  primaryLoading : Z;
  secondaryLoading : Z
}.

Definition set_pipes (pd : PipeDriverImpl) (l : list Pipe.Ptr) : PipeDriverImpl :=
  {| upstreams := upstreams pd; primaryLimit := primaryLimit pd;
     secondaryLimit := secondaryLimit pd; pipes := l;
     primaryLoading := primaryLoading pd;
     secondaryLoading := secondaryLoading pd |}.

Definition set_primaryLoading (pd : PipeDriverImpl) (n : Z) : PipeDriverImpl :=
  {| upstreams := upstreams pd; primaryLimit := primaryLimit pd;
     secondaryLimit := secondaryLimit pd; pipes := pipes pd;
     primaryLoading := n;
     secondaryLoading := secondaryLoading pd |}.

Definition set_secondaryLoading (pd : PipeDriverImpl) (n : Z) : PipeDriverImpl :=
  {| upstreams := upstreams pd; primaryLimit := primaryLimit pd;
     secondaryLimit := secondaryLimit pd; pipes := pipes pd;
     primaryLoading := primaryLoading pd;
     secondaryLoading := n |}.

(** What the driver does to the world outside its own state, in program
    order. *)
Inductive Effect : Type :=
| Go_initConn (p : Pipe.Pipe) (cfg : ConnConfig)  (* NewPipe: go p.initConn(cfg) *)
| Sleep (d : Z)                                   (* time.Sleep(d) *)
| Writer_WriteMsg (resp : Msg).                   (* w.WriteMsg(resp) *)

(** [func NewDriver(upstreams []ConnConfig) *PipeDriverImpl] *)
Definition NewDriver (upstreams : list ConnConfig) : PipeDriverImpl :=
  {| upstreams := upstreams;
     primaryLimit := PRIMARY_PIPES_MAX;
     secondaryLimit := SECONDARY_PIPES_MAX;
     pipes := [];
     primaryLoading := 0;
     secondaryLoading := 0 |}.

(** [func remove[T any](slice []T, s int) []T] *)
Definition remove {T : Type} (slice : list T) (s : nat) : list T :=
  take s slice ++ drop (S s) slice.

(** [func (pd *PipeDriverImpl) removePipe(pipe *Pipe)]: the first index
    whose pointer equals [pipe] is removed. *)
Definition removePipe (pd : PipeDriverImpl) (pipe : Pipe.Ptr) : PipeDriverImpl :=
  match list_find (fun q => Pipe.addr q = Pipe.addr pipe) (pipes pd) with
  | Some (i, _) => set_pipes pd (remove (pipes pd) i)
  | None => pd
  end.

(** [func (pd *PipeDriverImpl) pipeReady(pipe *Pipe)] *)
Definition pipeReady (pd : PipeDriverImpl) (pipe : Pipe.Ptr) : PipeDriverImpl :=
  let pd1 := set_pipes pd (pipes pd ++ [pipe]) in
  if Pipe.primary pipe
  then set_primaryLoading pd1 (primaryLoading pd1 - 1)
  else set_secondaryLoading pd1 (secondaryLoading pd1 - 1).

(** Indexing a slice: out of range panics. *)
Definition index {T : Type} (slice : list T) (i : Z) : Result T :=
  if decide (i < 0) then Panic
  else match slice !! Z.to_nat i with
       | Some x => Ok x
       | None => Panic
       end.

(** [func (pd *PipeDriverImpl) selectUpstream(primary bool) ConnConfig] *)
Definition selectUpstream (rt : Runtime) (pd : PipeDriverImpl) (primary : bool)
    : Result (Runtime * ConnConfig) :=
  if primary || bool_decide (length (upstreams pd) = 1%nat) then
    match index (upstreams pd) 0 with
    | Panic => Panic
    | Ok cfg => Ok (rt, cfg)
    end
  else
    match rand_IntnRange rt 1 (Z.of_nat (length (upstreams pd))) with
    | Panic => Panic
    | Ok (rt', i) =>
        match index (upstreams pd) i with
        | Panic => Panic
        | Ok cfg => Ok (rt', cfg)
        end
    end.

(** [func (pd *PipeDriverImpl) pipeInitFailed(pipe *Pipe)] *)
Definition pipeInitFailed (rt : Runtime) (pd : PipeDriverImpl) (pipe : Pipe.Ptr)
    : Result (Runtime * list Effect) :=
  match selectUpstream rt pd (Pipe.primary pipe) with
  | Panic => Panic
  | Ok (rt1, cfg) =>
      let '(rt2, p) := Pipe.NewPipe rt1 (Pipe.primary pipe) in
      Ok (rt2, [Go_initConn p cfg])
  end.

(** [func (pd *PipeDriverImpl) countPipes() (primary int, secondary int)] *)
Definition countPipes (pd : PipeDriverImpl) : Z * Z :=
  fold_left
    (fun (acc : Z * Z) (q : Pipe.Ptr) =>
       if Pipe.primary q then (fst acc + 1, snd acc) else (fst acc, snd acc + 1))
    (pipes pd) (0, 0).

(** The three [for] loops of [loadPipes] have one shape,
    [for i := 0; i < bound; i++ { loading++; NewPipe(pd, primary, pd.selectUpstream(primary)) }],
    with a bound that the body does not change: [turns] is the number of
    turns left and [loading] the local accumulator. *)
Fixpoint spawn (turns : nat) (rt : Runtime) (pd : PipeDriverImpl) (primary : bool)
    (loading : Z) : Result (Runtime * Z * list Effect) :=
  match turns with
  | O => Ok (rt, loading, [])
  | S turns' =>
      match selectUpstream rt pd primary with
      | Panic => Panic
      | Ok (rt1, cfg) =>
          let '(rt2, p) := Pipe.NewPipe rt1 primary in
          match spawn turns' rt2 pd primary (loading + 1) with
          | Panic => Panic
          | Ok (rt3, loading', tr) => Ok (rt3, loading', Go_initConn p cfg :: tr)
          end
      end
  end.

(** [func (pd *PipeDriverImpl) loadPipes()] *)
Definition loadPipes (rt : Runtime) (pd : PipeDriverImpl)
    : Result (Runtime * PipeDriverImpl * list Effect) :=
  let '(primary, secondary) := countPipes pd in
  if decide (primary = 0) then
    match spawn (Z.to_nat (primaryLimit pd - primaryLoading pd)) rt pd true 0 with
    | Panic => Panic
    | Ok (rt1, loading, tr1) =>
        let pd1 := set_primaryLoading pd (loading + primaryLoading pd) in
        match spawn (Z.to_nat (secondaryLimit pd1 - secondary - secondaryLoading pd1))
                    rt1 pd1 false 0 with
        | Panic => Panic
        | Ok (rt2, loading2, tr2) =>
            Ok (rt2, set_secondaryLoading pd1 (loading2 + secondaryLoading pd1),
                tr1 ++ tr2)
        end
    end
  else
    match spawn (Z.to_nat (primaryLimit pd - primary - primaryLoading pd)) rt pd true 0 with
    | Panic => Panic
    | Ok (rt1, loading, tr1) =>
        Ok (rt1, set_primaryLoading pd (loading + primaryLoading pd), tr1)
    end.

(** The callbacks by which the pipes change the driver. *)
Inductive Callback : Type :=
| cb_pipeReady (p : Pipe.Ptr)
| cb_pipeInitFailed (p : Pipe.Ptr)
| cb_removePipe (p : Pipe.Ptr).

Definition run_callback (rt : Runtime) (pd : PipeDriverImpl) (cb : Callback)
    : Result (Runtime * PipeDriverImpl * list Effect) :=
  match cb with
  | cb_pipeReady p => Ok (rt, pipeReady pd p, [])
  | cb_pipeInitFailed p =>
      match pipeInitFailed rt pd p with
      | Panic => Panic
      | Ok (rt', tr) => Ok (rt', pd, tr)
      end
  | cb_removePipe p => Ok (rt, removePipe pd p, [])
  end.

Fixpoint run_callbacks (rt : Runtime) (pd : PipeDriverImpl) (cbs : list Callback)
    : Result (Runtime * PipeDriverImpl * list Effect) :=
  match cbs with
  | [] => Ok (rt, pd, [])
  | cb :: cbs' =>
      match run_callback rt pd cb with
      | Panic => Panic
      | Ok (rt1, pd1, tr1) =>
          match run_callbacks rt1 pd1 cbs' with
          | Panic => Panic
          | Ok (rt2, pd2, tr2) => Ok (rt2, pd2, tr1 ++ tr2)
          end
      end
  end.

(** What the environment contributes to one turn of the [for] of
    [process]: the callbacks that pipes run before the turn locks the
    pool, the clock that [time.Now()] reads, the state in which the
    selected pipe is found, what happens on that pipe while the call is
    blocked in it, and the result of [w.WriteMsg]. *)
Record Round : Type := mkRound {
  rd_callbacks : list Callback;
  rd_now : Z;
  rd_pipe : Pipe.Ptr -> Pipe.Pipe;
  rd_others : Pipe.Pipe -> Pipe.Pipe;
  rd_arm : Pipe.SelectArm;
  rd_sink : option error
}.

(** The state that [process] threads through its loop: the runtime, the
    driver and the request message. *)
Record State : Type := mkState {
  st_rt : Runtime;
  st_pd : PipeDriverImpl;
  st_msg : Msg
}.

(** How one turn of the loop ends. *)
Inductive Turn : Type :=
| Return (st : State) (tr : list Effect) (rcode : Z) (err : option error)
| Continue (st : State) (tr : list Effect)
| Crash.

(** The block of [process] that runs under the read lock of the pool:
    [if len(pd.pipes) == 0 { pd.loadPipes() } else { pipe = pd.pipes[rand.Intn(len(pd.pipes))] }].
    [None] is the nil pointer that [pipe] keeps when the pool is empty. *)
Definition pick (rt : Runtime) (pd : PipeDriverImpl)
    : Result (Runtime * PipeDriverImpl * list Effect * option Pipe.Ptr) :=
  if decide (length (pipes pd) = 0%nat) then
    match loadPipes rt pd with
    | Panic => Panic
    | Ok (rt1, pd1, tr1) => Ok (rt1, pd1, tr1, None)
    end
  else
    match rand_Intn rt (Z.of_nat (length (pipes pd))) with
    | Panic => Panic
    | Ok (rt1, pipeId) =>
        match index (pipes pd) pipeId with
        | Panic => Panic
        | Ok pipe => Ok (rt1, pd, [], Some pipe)
        end
    end.

(** The state after the call of [pipe.process] in a turn: the allocator
    and the request message are as the call left them. *)
Definition after_pipe (rt : Runtime) (pd : PipeDriverImpl) (ex : Pipe.Exit) : State :=
  {| st_rt := {| next_addr := Pipe.exit_heap ex; pipeIDGen := pipeIDGen rt;
                 rand_src := rand_src rt; rand_pos := rand_pos rt |};
     st_pd := pd;
     st_msg := Pipe.exit_msg ex |}.

(** The body of the [for] of [process].  Its first statement is a log
    line that indexes [msg.Question[0]]. *)
Definition process_turn (deadline : Z) (st : State) (rd : Round) : Turn :=
  match Question (st_msg st) with
  | [] => Crash
  | _ :: _ =>
    match run_callbacks (st_rt st) (st_pd st) (rd_callbacks rd) with
    | Panic => Crash
    | Ok (rt0, pd0, tr0) =>
      match pick rt0 pd0 with
      | Panic => Crash
      | Ok (rt1, pd1, tr1, None) =>
          let st1 := {| st_rt := rt1; st_pd := pd1; st_msg := st_msg st |} in
          if decide (rd_now rd < deadline) then
            Continue st1 (tr0 ++ tr1 ++ [Sleep (100 * Millisecond)])
          else
            Return st1 (tr0 ++ tr1) RcodeServerFailure
                   (Some (errorsNew "no pipe available"))
      | Ok (rt1, pd1, tr1, Some pipe) =>
          match Pipe.process (next_addr rt1) (rd_pipe rd pipe) (st_msg st)
                             (rd_others rd) (rd_arm rd) with
          | Panic => Crash
          | Ok ex =>
              let st1 := after_pipe rt1 pd1 ex in
              match Pipe.exit_err ex with
              | None =>
                  match Pipe.exit_resp ex with
                  | None => Crash
                  | Some resp =>
                      match rd_sink rd with
                      | Some err =>
                          Return st1 (tr0 ++ tr1 ++ [Writer_WriteMsg resp])
                                 RcodeServerFailure (Some err)
                      | None =>
                          Return st1 (tr0 ++ tr1 ++ [Writer_WriteMsg resp])
                                 RcodeSuccess None
                      end
                  end
              | Some err =>
                  if errors_Is err writeNotReady then Continue st1 (tr0 ++ tr1)
                  else Return st1 (tr0 ++ tr1) RcodeServerFailure (Some err)
              end
          end
      end
    end
  end.

(** How a call of [process] stands after the rounds it was given:
    returned, still in its loop, or crashed. *)
Inductive Outcome : Type :=
| Returned (st : State) (tr : list Effect) (rcode : Z) (err : option error)
| Running (st : State) (tr : list Effect)
| Crashed.

Fixpoint process_loop (deadline : Z) (st : State) (tr : list Effect)
    (rounds : list Round) : Outcome :=
  match rounds with
  | [] => Running st tr
  | rd :: rounds' =>
      match process_turn deadline st rd with
      | Crash => Crashed
      | Return st' tr' rcode err => Returned st' (tr ++ tr') rcode err
      | Continue st' tr' => process_loop deadline st' (tr ++ tr') rounds'
      end
  end.

(** [func (pd *PipeDriverImpl) process(msg *dns.Msg, w dns.ResponseWriter) (int, error)].
    [entry] is the clock that [time.Now()] reads when the call begins. *)
Definition process (rt : Runtime) (pd : PipeDriverImpl) (msg : Msg)
    (entry : Z) (rounds : list Round) : Outcome :=
  let deadline := entry + 500 * Millisecond in
  process_loop deadline {| st_rt := rt; st_pd := pd; st_msg := msg |} [] rounds.

(** The number of Ready pipes of a class in the pool. *)
Definition ready (pd : PipeDriverImpl) (primary : bool) : Z :=
  Z.of_nat (length (filter (fun q => Pipe.primary q = primary) (pipes pd))).

(** The class of the pipe that an effect starts, if it starts one. *)
Definition started (e : Effect) : option bool :=
  match e with
  | Go_initConn p _ => Some (Pipe.primary (Pipe.this p))
  | _ => None
  end.

(** The number of pipes of a class that a trace starts. *)
Definition spawned (tr : list Effect) (primary : bool) : Z :=
  Z.of_nat (length (filter (fun e => started e = Some primary) tr)).

(** The time that a trace spends in [time.Sleep]. *)
Definition slept (tr : list Effect) : Z :=
  fold_right (fun e acc => match e with Sleep d => d + acc | _ => acc end) 0 tr.

(** The pool invariant of one class. *)
Definition within_limit (pd : PipeDriverImpl) (primary : bool) : Prop :=
  if primary
  then ready pd true + primaryLoading pd <= primaryLimit pd
  else ready pd false + secondaryLoading pd <= secondaryLimit pd.

(** The operations that change a driver, and the states they reach from a
    new driver. *)
Inductive step : Runtime * PipeDriverImpl -> Runtime * PipeDriverImpl -> Prop :=
| step_loadPipes rt pd rt' pd' tr :
    loadPipes rt pd = Ok (rt', pd', tr) -> step (rt, pd) (rt', pd')
| step_pipeReady rt pd pipe :
    step (rt, pd) (rt, pipeReady pd pipe)
| step_pipeInitFailed rt pd pipe rt' tr :
    pipeInitFailed rt pd pipe = Ok (rt', tr) -> step (rt, pd) (rt', pd)
| step_removePipe rt pd pipe :
    step (rt, pd) (rt, removePipe pd pipe).

Inductive reachable (ups : list ConnConfig) : Runtime * PipeDriverImpl -> Prop :=
| reachable_new rt : reachable ups (rt, NewDriver ups)
| reachable_step s s' : reachable ups s -> step s s' -> reachable ups s'.

End PipeDriverImpl.

(** ** Well-formed caches *)

(** Every Sender in the cache was allocated below [heap], and no Sender is
    stored under two keys. *)
Definition cache_wf (heap : nat) (c : SenderCache.SenderCache) : Prop :=
  (forall k s, SenderCache.cache c !! k = Some s ->
     (responseChan s < heap)%nat /\ (errChan s < heap)%nat) /\
  (forall k1 k2 s,
     SenderCache.cache c !! k1 = Some s -> SenderCache.cache c !! k2 = Some s ->
     k1 = k2).

(** ** A request in flight *)

(** The pipe as the other goroutines find it while a call of
    [Pipe.process] that was admitted is blocked: the Sender of the request
    is in the cache and the message, with its pipe-local ID, is on offer
    on [writeChan]. *)
Definition in_flight (heap : nat) (p : Pipe.Pipe) (msg : Msg) : Pipe.Pipe :=
  let a := SenderCache.add heap (Pipe.cache p) msg in
  Pipe.set_writeChan (Pipe.set_cache p (SenderCache.add_cache a))
                     (Pipe.writeChan p ++ [SenderCache.add_msg a]).

(** The pipe-local ID that the next admitted request gets. *)
Definition next_id (p : Pipe.Pipe) : Z :=
  uint16_wrap (SenderCache.msgIDGen (Pipe.cache p) + 1).

(** ** Sample states *)

Definition sample_msg : Msg :=
  {| Id := 4660; Question := ["example.com."%string]; Answer := [] |}.

Definition sample_sender : Sender := {| responseChan := 0%nat; errChan := 1%nat |}.

Definition other_sender : Sender := {| responseChan := 2%nat; errChan := 3%nat |}.

(** A cache whose generator is about to wrap onto the key of a request
    that is still in flight. *)
Definition wrapping_cache : SenderCache.SenderCache :=
  {| SenderCache.cache := {[ 0 := sample_sender ]}; SenderCache.msgIDGen := 65535 |}.

(** A cache with two requests in flight, under the keys 7 and 8. *)
Definition busy_cache : SenderCache.SenderCache :=
  {| SenderCache.cache := <[ 7 := sample_sender ]> {[ 8 := other_sender ]};
     SenderCache.msgIDGen := 8 |}.

Definition sample_rt : Runtime :=
  {| next_addr := 0; pipeIDGen := 0; rand_src := fun _ => 0%nat; rand_pos := 0 |}.

(** A new pipe whose writer has started. *)
Definition ready_pipe : Pipe.Pipe :=
  Pipe.setWriteReady (snd (Pipe.NewPipe sample_rt true)) true.

(** The answer of the upstream to the first request of a new pipe. *)
Definition sample_resp : Msg :=
  {| Id := 1; Question := ["example.com."%string];
     Answer := ["example.com. 300 IN A 93.184.216.34"%string] |}.

(** A second query, and a pipe with both queries admitted and on offer
    to the writer. *)
Definition second_msg : Msg :=
  {| Id := 2; Question := ["b.example."%string]; Answer := [] |}.

Definition two_in_flight : Pipe.Pipe :=
  in_flight 2 (in_flight 0 ready_pipe sample_msg) second_msg.

(** A new driver with one upstream, and the pointer of a primary pipe. *)
Definition sample_driver : PipeDriverImpl.PipeDriverImpl :=
  PipeDriverImpl.NewDriver [ {| Hostname := "127.0.0.1"; Port := 53 |} ].

Definition primary_ptr : Pipe.Ptr :=
  {| Pipe.addr := 0; Pipe.id := 1; Pipe.primary := true |}.

(** A round in which no pipe reports to the driver, read at clock [now];
    a pipe that is called is found as [p] and answers by [arm]. *)
Definition round_at (now : Z) (p : Pipe.Pipe) (arm : Pipe.SelectArm)
    : PipeDriverImpl.Round :=
  {| PipeDriverImpl.rd_callbacks := [];
     PipeDriverImpl.rd_now := now;
     PipeDriverImpl.rd_pipe := fun _ => p;
     PipeDriverImpl.rd_others := fun q => q;
     PipeDriverImpl.rd_arm := arm;
     PipeDriverImpl.rd_sink := None |}.

(** Six rounds, 100 ms apart, of a driver whose pipes never become
    Ready. *)
Definition cold_rounds : list PipeDriverImpl.Round :=
  map (fun k => round_at (k * 100 * Millisecond) ready_pipe Pipe.time_After)
      [0; 1; 2; 3; 4; 5].

(** A driver with one Ready pipe. *)
Definition warm_driver : PipeDriverImpl.PipeDriverImpl :=
  PipeDriverImpl.pipeReady sample_driver primary_ptr.

(** Two rounds: the pipe is found draining, then ready and answering. *)
Definition retry_rounds : list PipeDriverImpl.Round :=
  [ round_at 0 (Pipe.setWriteReady ready_pipe false) Pipe.time_After;
    round_at 0 ready_pipe (Pipe.recv_responseChan sample_resp) ].

(** ** Runs of several operations *)

(** A call on the cache of a pipe, and the cache after a sequence of
    calls. *)
Inductive cache_op : Type :=
| op_add (msg : Msg)
| op_getAndRemove (id : Z).

Definition run_op (st : nat * SenderCache.SenderCache) (op : cache_op)
    : nat * SenderCache.SenderCache :=
  match op with
  | op_add msg =>
      let a := SenderCache.add (fst st) (snd st) msg in
      (SenderCache.add_heap a, SenderCache.add_cache a)
  | op_getAndRemove id => (fst st, fst (SenderCache.getAndRemove (snd st) id))
  end.

Definition run_ops (st : nat * SenderCache.SenderCache) (ops : list cache_op)
    : nat * SenderCache.SenderCache :=
  fold_left run_op ops st.

(** The pipe-local IDs that consecutive calls of [add] hand out. *)
Fixpoint add_ids (heap : nat) (c : SenderCache.SenderCache) (msgs : list Msg) : list Z :=
  match msgs with
  | [] => []
  | msg :: msgs' =>
      let a := SenderCache.add heap c msg in
      Id (SenderCache.add_msg a)
        :: add_ids (SenderCache.add_heap a) (SenderCache.add_cache a) msgs'
  end.

(** No two Senders of the cache share an error channel. *)
Definition errChans_distinct (c : SenderCache.SenderCache) : Prop :=
  forall k1 k2 s1 s2,
    SenderCache.cache c !! k1 = Some s1 -> SenderCache.cache c !! k2 = Some s2 ->
    errChan s1 = errChan s2 -> k1 = k2.

(** The error channels on which a trace of a pipe sends. *)
Definition errChan_sends (tr : list Pipe.Effect) : list chan :=
  omap (fun e => match e with Pipe.Send_errChan c _ => Some c | _ => None end) tr.

(** The messages that a trace of a pipe writes to the connection. *)
Definition written (tr : list Pipe.Effect) : list Msg :=
  omap (fun e => match e with Pipe.Conn_WriteMsg m => Some m | _ => None end) tr.

(** Consecutive turns of the [for] of [writeLoop] in which the arm
    [case req := <-p.writeChan] fires, with the outcomes [os] of the
    connection, while no other goroutine touches the pipe.  The run stops
    when nothing is on offer or when the loop returns; the boolean tells
    whether the loop is still running. *)
Fixpoint writeLoop_turns (p : Pipe.Pipe) (os : list Pipe.WriteOutcome)
    : Pipe.Pipe * list Pipe.Effect * bool :=
  match os with
  | [] => (p, [], true)
  | o :: os' =>
      match Pipe.writeLoop_recv p o with
      | None => (p, [], true)
      | Some (p1, tr, false) => (p1, tr, false)
      | Some (p1, tr, true) =>
          let '(p2, tr2, running) := writeLoop_turns p1 os' in
          (p2, tr ++ tr2, running)
      end
  end.

(** The responses that a trace of the driver writes to the sink. *)
Definition sink_writes (tr : list PipeDriverImpl.Effect) : list Msg :=
  omap (fun e => match e with PipeDriverImpl.Writer_WriteMsg m => Some m | _ => None end) tr.


(** What the writer and the reader do to a pipe when the writer takes
    the message on offer and writes it, and the reader then reads the
    response [resp]. *)
Definition served (resp : Msg) (q : Pipe.Pipe) : Pipe.Pipe :=
  fst (Pipe.readLoop_recv (fst (fst (writeLoop_turns q [Pipe.write_ok]))) resp).

(** A round that differs from [rd] in the clock only. *)
Definition at_clock (rd : PipeDriverImpl.Round) (now : Z) : PipeDriverImpl.Round :=
  {| PipeDriverImpl.rd_callbacks := PipeDriverImpl.rd_callbacks rd;
     PipeDriverImpl.rd_now := now;
     PipeDriverImpl.rd_pipe := PipeDriverImpl.rd_pipe rd;
     PipeDriverImpl.rd_others := PipeDriverImpl.rd_others rd;
     PipeDriverImpl.rd_arm := PipeDriverImpl.rd_arm rd;
     PipeDriverImpl.rd_sink := PipeDriverImpl.rd_sink rd |}.

(** ** The plugin setup *)

(** [strings.Split(s, sep)] for a separator of one byte: the pieces of [s]
    between the occurrences of [sep]; one empty piece for the empty
    string. *)
Fixpoint strings_Split (s : string) (sep : Ascii.ascii) : list string :=
  match s with
  | EmptyString => [EmptyString]
  | String c s' =>
      if Ascii.eqb c sep then EmptyString :: strings_Split s' sep
      else match strings_Split s' sep with
           | [] => [String c EmptyString]
           | piece :: pieces => String c piece :: pieces
           end
  end.

(** [func convertUpstreams(upstreams []string) (cfgs []ConnConfig, err error)].
    [Atoi] is [strconv.Atoi], which returns the integer or an error; [cfgs]
    is the named result as the turns of the loop before have left it. *)
Fixpoint convertUpstreams_from (Atoi : string -> Z + error)
    (cfgs : list ConnConfig) (upstreams : list string)
    : list ConnConfig * option error :=
  match upstreams with
  | [] => (cfgs, None)
  | upstream :: upstreams' =>
      let parts := strings_Split upstream ":"%char in
      if bool_decide (length parts = 0%nat) || bool_decide (2 < length parts)%nat then
        ([], Some (errorsNew "upstream parsing failed"))
      else
        match parts with
        | [] => ([], Some (errorsNew "upstream parsing failed"))
        | host :: rest =>
            match rest with
            | [portText] =>
                match Atoi portText with
                | inl port =>
                    convertUpstreams_from Atoi
                      (cfgs ++ [ {| Hostname := host; Port := port |} ]) upstreams'
                | inr err => ([], Some err)
                end
            | _ =>
                convertUpstreams_from Atoi
                  (cfgs ++ [ {| Hostname := host; Port := 53 |} ]) upstreams'
            end
        end
  end.

Definition convertUpstreams (Atoi : string -> Z + error) (upstreams : list string)
    : list ConnConfig * option error :=
  convertUpstreams_from Atoi [] upstreams.

(** The number of occurrences of a byte in a string. *)
Fixpoint occurrences (sep : Ascii.ascii) (s : string) : nat :=
  match s with
  | EmptyString => 0%nat
  | String c s' => ((if Ascii.eqb c sep then 1 else 0) + occurrences sep s')%nat
  end.

(** The upstream texts that [convertUpstreams] accepts, with the
    endpoint that each stands for: a host without colon, with port 53, or
    a host and a port text without colon, joined by one colon, where
    [Atoi] reads the port. *)
Definition parses_to (Atoi : string -> Z + error) (upstream : string)
    (cfg : ConnConfig) : Prop :=
  occurrences ":" (Hostname cfg) = 0%nat /\
  ((upstream = Hostname cfg /\ Port cfg = 53) \/
   (exists t, upstream = String.append (Hostname cfg) (String ":" t) /\
              occurrences ":" t = 0%nat /\
              Atoi t = inl (Port cfg))).

(** A stand-in for [strconv.Atoi] that reads the one text 5353. *)
Definition sample_Atoi (s : string) : Z + error :=
  if decide (s = "5353"%string) then inl 5353 else inr (external 0).

(** * Properties *)

(** ** The correlation cache *)

Section CacheFacts.

Import SenderCache.

Lemma uint16_wrap_range (z : Z) : is_uint16 (uint16_wrap z).
Proof. unfold is_uint16, uint16_wrap, uint16_modulus. apply Z.mod_pos_bound. lia. Qed.

Lemma uint16_wrap_small (z : Z) : is_uint16 z -> uint16_wrap z = z.
Proof. unfold is_uint16, uint16_wrap, uint16_modulus. intros H. apply Z.mod_small. lia. Qed.

Lemma getAndRemove_result (c : SenderCache) (id : Z) :
  snd (getAndRemove c id) = cache c !! id.
Proof. unfold getAndRemove. destruct (cache c !! id); reflexivity. Qed.

Lemma getAndRemove_cache (c : SenderCache) (id : Z) :
  cache (fst (getAndRemove c id)) = delete id (cache c).
Proof.
  unfold getAndRemove. destruct (cache c !! id) eqn:E; simpl; [reflexivity|].
  symmetry. apply delete_id. exact E.
Qed.

Lemma getAndRemove_msgIDGen (c : SenderCache) (id : Z) :
  msgIDGen (fst (getAndRemove c id)) = msgIDGen c.
Proof. unfold getAndRemove. destruct (cache c !! id); reflexivity. Qed.

Lemma getAndRemove_absent (c : SenderCache) (id : Z) :
  cache c !! id = None -> getAndRemove c id = (c, None).
Proof. intros E. unfold getAndRemove. rewrite E. reflexivity. Qed.

Lemma empty_cache_wf (heap : nat) : cache_wf heap empty_cache.
Proof.
  split; simpl; intros *; rewrite lookup_empty; discriminate.
Qed.

Lemma getAndRemove_wf (heap : nat) (c : SenderCache) (id : Z) :
  cache_wf heap c -> cache_wf heap (fst (getAndRemove c id)).
Proof.
  intros [Hlt Hinj]. split; rewrite getAndRemove_cache.
  - intros k s Hk. apply lookup_delete_Some in Hk as [_ Hk]. eauto.
  - intros k1 k2 s H1 H2.
    apply lookup_delete_Some in H1 as [_ H1].
    apply lookup_delete_Some in H2 as [_ H2]. eauto.
Qed.

Lemma add_sender_fresh (heap : nat) (c : SenderCache) (msg : Msg) (k : Z) (s : Sender) :
  cache_wf heap c -> cache c !! k = Some s -> s <> add_sender (add heap c msg).
Proof.
  intros [Hlt _] Hk ->. apply Hlt in Hk. simpl in Hk. lia.
Qed.

Lemma add_wf (heap : nat) (c : SenderCache) (msg : Msg) :
  cache_wf heap c ->
  cache_wf (add_heap (add heap c msg)) (add_cache (add heap c msg)).
Proof.
  intros Hwf. pose proof Hwf as [Hlt Hinj]. split; simpl.
  - intros k s Hk. apply lookup_insert_Some in Hk as [[_ <-]|[_ Hk]]; simpl.
    + lia.
    + apply Hlt in Hk. lia.
  - intros k1 k2 s H1 H2.
    apply lookup_insert_Some in H1 as [[E1 <-]|[N1 H1]];
      apply lookup_insert_Some in H2 as [[E2 H2]|[N2 H2]].
    + congruence.
    + exfalso. eapply (add_sender_fresh heap c msg); eauto.
    + exfalso. eapply (add_sender_fresh heap c msg); eauto.
    + eauto.
Qed.

(** C9.  [add] returns the ID that the message had, steps the 16-bit
    generator with wrap-around, writes the new value into the message,
    stores a newly allocated Sender under the new key and returns it.  A
    Sender that was stored under that key before is overwritten: it is
    found under no key any more. *)
Theorem SenderCache_add_spec (heap : nat) (c : SenderCache) (msg : Msg) :
  let r := add heap c msg in
  let newId := uint16_wrap (msgIDGen c + 1) in
  add_oldMsgId r = Id msg /\
  msgIDGen (add_cache r) = newId /\
  is_uint16 newId /\
  (is_uint16 (msgIDGen c) ->
     newId = if decide (msgIDGen c = 65535) then 0 else msgIDGen c + 1) /\
  add_msg r = set_Id msg newId /\
  add_sender r = {| responseChan := heap; errChan := S heap |} /\
  add_heap r = S (S heap) /\
  cache (add_cache r) = <[newId := add_sender r]> (cache c) /\
  cache (add_cache r) !! newId = Some (add_sender r) /\
  snd (getAndRemove (add_cache r) newId) = Some (add_sender r) /\
  (cache_wf heap c -> forall k s, cache c !! k = Some s -> s <> add_sender r) /\
  (cache_wf heap c -> forall old, cache c !! newId = Some old ->
     forall k, cache (add_cache r) !! k <> Some old).
Proof.
  intros r newId. subst r newId.
  repeat match goal with |- _ /\ _ => split end; try reflexivity.
  - apply uint16_wrap_range.
  - unfold is_uint16, uint16_wrap, uint16_modulus. intros Hr.
    case_decide as E.
    + rewrite E. reflexivity.
    + apply Z.mod_small. lia.
  - simpl. apply lookup_insert_eq.
  - rewrite getAndRemove_result. simpl. apply lookup_insert_eq.
  - intros Hwf k s Hk. eapply add_sender_fresh; eauto.
  - intros Hwf old Hold k Hk. simpl in Hk.
    apply lookup_insert_Some in Hk as [[_ Hk]|[Hne Hk]].
    + eapply (add_sender_fresh heap c msg); eauto.
    + destruct Hwf as [_ Hinj]. apply Hne. eapply Hinj; eauto.
Qed.

Lemma wrapping_cache_wf : cache_wf 2 wrapping_cache.
Proof.
  split; simpl.
  - intros k s Hk. apply lookup_singleton_Some in Hk as [_ <-]. simpl. lia.
  - intros k1 k2 s H1 H2.
    apply lookup_singleton_Some in H1 as [<- _].
    apply lookup_singleton_Some in H2 as [<- _]. reflexivity.
Qed.

(** At the wrap from 65535 the new key is 0, and the Sender that was in
    flight under 0 is gone from the cache. *)
Lemma SenderCache_add_spec_witness :
  cache_wf 2 wrapping_cache /\
  cache wrapping_cache !! 0 = Some sample_sender /\
  Id (add_msg (add 2 wrapping_cache sample_msg)) = 0 /\
  forall k, cache (add_cache (add 2 wrapping_cache sample_msg)) !! k
            <> Some sample_sender.
Proof.
  pose proof (SenderCache_add_spec 2 wrapping_cache sample_msg) as H.
  cbv zeta in H.
  destruct H as (_ & _ & _ & _ & _ & _ & _ & _ & _ & _ & _ & Hgone).
  split; [exact wrapping_cache_wf|].
  split; [reflexivity|].
  split; [reflexivity|].
  apply Hgone; [exact wrapping_cache_wf | reflexivity].
Defined.

(** C10.  [getAndRemove] returns and removes the entry under [id], if
    there is one, and changes neither an entry under another key nor the
    generator; [add] changes no entry under a key other than the new ID. *)
Theorem SenderCache_frame (heap : nat) (c : SenderCache) (msg : Msg) (id : Z) :
  (snd (getAndRemove c id) = cache c !! id /\
   cache (fst (getAndRemove c id)) !! id = None /\
   (forall k, k <> id -> cache (fst (getAndRemove c id)) !! k = cache c !! k) /\
   msgIDGen (fst (getAndRemove c id)) = msgIDGen c /\
   (cache c !! id = None -> getAndRemove c id = (c, None))) /\
  (forall k, k <> Id (add_msg (add heap c msg)) ->
     cache (add_cache (add heap c msg)) !! k = cache c !! k).
Proof.
  split; [repeat match goal with |- _ /\ _ => split end|].
  - apply getAndRemove_result.
  - rewrite getAndRemove_cache. apply lookup_delete_eq.
  - intros k Hk. rewrite getAndRemove_cache. apply lookup_delete_ne. congruence.
  - apply getAndRemove_msgIDGen.
  - apply getAndRemove_absent.
  - intros k Hk. simpl in *. apply lookup_insert_ne. congruence.
Qed.

(** Taking the request under key 7 out of a cache that also holds one
    under key 8 leaves the latter in place, and so does the [add] that
    follows, which takes key 9. *)
Lemma SenderCache_frame_witness :
  cache (fst (getAndRemove busy_cache 7)) !! 8 = Some other_sender /\
  cache (add_cache (add 4 busy_cache sample_msg)) !! 8 = Some other_sender.
Proof.
  destruct (SenderCache_frame 4 busy_cache sample_msg 7)
    as [(_ & _ & Hrem & _ & _) Hadd].
  split.
  - rewrite Hrem; [reflexivity | discriminate].
  - rewrite Hadd; [reflexivity | discriminate].
Defined.

End CacheFacts.

(** ** The pipe *)

Section PipeFacts.

Import Pipe.

Lemma set_Id_restore (msg : Msg) (i : Z) : set_Id (set_Id msg i) (Id msg) = msg.
Proof. destruct msg. reflexivity. Qed.

Lemma in_flight_queue (heap : nat) (p : Pipe) (msg : Msg) :
  writeChan (in_flight heap p msg) = writeChan p ++ [set_Id msg (next_id p)].
Proof. reflexivity. Qed.

Lemma in_flight_cache (heap : nat) (p : Pipe) (msg : Msg) :
  SenderCache.cache (cache (in_flight heap p msg)) !! next_id p
  = Some {| responseChan := heap; errChan := S heap |}.
Proof. simpl. apply lookup_insert_eq. Qed.

(** What [process] does once the request is admitted, arm by arm. *)
Lemma process_admitted (heap : nat) (p : Pipe) (msg : Msg)
    (others : Pipe -> Pipe) (arm : SelectArm) :
  writeReady p = true -> Question msg <> [] ->
  process heap p msg others arm =
  match arm with
  | recv_responseChan resp =>
      match Answer resp with
      | [] => Panic
      | _ :: _ =>
          Ok {| exit_heap := S (S heap); exit_pipe := others (in_flight heap p msg);
                exit_msg := msg; exit_resp := Some (set_Id resp (Id msg));
                exit_err := None |}
      end
  | recv_errChan err =>
      Ok {| exit_heap := S (S heap); exit_pipe := others (in_flight heap p msg);
            exit_msg := msg; exit_resp := None; exit_err := Some err |}
  | time_After =>
      Ok {| exit_heap := S (S heap);
            exit_pipe :=
              set_cache (others (in_flight heap p msg))
                (fst (SenderCache.getAndRemove
                        (cache (others (in_flight heap p msg))) (next_id p)));
            exit_msg := set_Id msg (next_id p);
            exit_resp := None; exit_err := Some timeoutErr |}
  end.
Proof.
  intros Hready Hq. unfold process, isWriteReady. rewrite Hready. simpl.
  destruct (Question msg) as [|q qs] eqn:EQ; [congruence|].
  destruct arm as [resp|err|].
  - destruct (Answer resp); [reflexivity|].
    rewrite set_Id_restore. reflexivity.
  - rewrite set_Id_restore. reflexivity.
  - fold (in_flight heap p msg). fold (next_id p).
    destruct (SenderCache.getAndRemove _ _) as [c o]. reflexivity.
Qed.

(** What [process] does when the writer is not ready. *)
Lemma process_rejected (heap : nat) (p : Pipe) (msg : Msg)
    (others : Pipe -> Pipe) (arm : SelectArm) :
  writeReady p = false -> Question msg <> [] ->
  process heap p msg others arm =
  Ok {| exit_heap := heap; exit_pipe := p; exit_msg := msg;
        exit_resp := None; exit_err := Some writeNotReady |}.
Proof.
  intros Hready Hq. unfold process, isWriteReady. rewrite Hready. simpl.
  destruct (Question msg); [congruence | reflexivity].
Qed.

(** On every path but the timeout the request message is handed back as
    it came. *)
Lemma process_restores_request_id (heap : nat) (p : Pipe) (msg : Msg)
    (others : Pipe -> Pipe) (arm : SelectArm) (ex : Exit) :
  arm <> time_After ->
  process heap p msg others arm = Ok ex -> exit_msg ex = msg.
Proof.
  intros Harm H.
  destruct (Question msg) as [|q qs] eqn:EQ.
  { unfold process in H. rewrite EQ in H. discriminate. }
  assert (Hq : Question msg <> []) by (rewrite EQ; discriminate).
  destruct (writeReady p) eqn:ER.
  - rewrite (process_admitted _ _ _ _ _ ER Hq) in H.
    destruct arm as [resp|err|]; [| |congruence].
    + destruct (Answer resp); [discriminate|]. injection H as <-. reflexivity.
    + injection H as <-. reflexivity.
  - rewrite (process_rejected _ _ _ _ _ ER Hq) in H. injection H as <-. reflexivity.
Qed.

(** C1.  Whatever happens while the call is blocked, a response that
    [process] returns carries the ID that the request had when the call
    began; and when the response arm fires on a pipe that is write-ready,
    [process] does return the response, although the message went out
    under the pipe-local ID [next_id p]. *)
Theorem Pipe_process_round_trip (heap : nat) (p : Pipe) (msg : Msg)
    (others : Pipe -> Pipe) :
  (forall arm ex resp,
     process heap p msg others arm = Ok ex -> exit_resp ex = Some resp ->
     Id resp = Id msg /\ exit_err ex = None) /\
  (forall r, writeReady p = true -> Question msg <> [] -> Answer r <> [] ->
     exists ex,
       process heap p msg others (recv_responseChan r) = Ok ex /\
       exit_resp ex = Some (set_Id r (Id msg)) /\
       exit_err ex = None /\
       exit_pipe ex = others (in_flight heap p msg)) /\
  last (writeChan (in_flight heap p msg)) = Some (set_Id msg (next_id p)).
Proof.
  split; [|split].
  - intros arm ex resp H Hresp.
    destruct (Question msg) as [|q qs] eqn:EQ.
    { unfold process in H. rewrite EQ in H. discriminate. }
    assert (Hq : Question msg <> []) by (rewrite EQ; discriminate).
    destruct (writeReady p) eqn:ER.
    + rewrite (process_admitted _ _ _ _ _ ER Hq) in H.
      destruct arm as [r|err|].
      * destruct (Answer r); [discriminate|]. injection H as <-.
        simpl in Hresp. injection Hresp as <-. split; reflexivity.
      * injection H as <-. discriminate.
      * injection H as <-. discriminate.
    + rewrite (process_rejected _ _ _ _ _ ER Hq) in H. injection H as <-.
      discriminate.
  - intros r ER Hq Ha. rewrite (process_admitted _ _ _ _ _ ER Hq).
    destruct (Answer r); [congruence|].
    eexists. split; [reflexivity|]. simpl. repeat split.
  - rewrite in_flight_queue. apply last_snoc.
Qed.

(** The query with ID 4660 goes out on a new pipe under ID 1; the answer
    comes back to the caller with ID 4660. *)
Lemma Pipe_process_round_trip_witness :
  exists ex resp,
    process 0 ready_pipe sample_msg (fun q => q) (recv_responseChan sample_resp) = Ok ex /\
    exit_resp ex = Some resp /\ Id resp = 4660.
Proof.
  eexists. eexists. split; [reflexivity|]. split; [reflexivity|].
  destruct (Pipe_process_round_trip 0 ready_pipe sample_msg (fun q => q)) as [H _].
  eapply (H (recv_responseChan sample_resp)); reflexivity.
Defined.

(** C2.  When the timer arm of the [select] fires, [process] returns
    [timeoutErr] and leaves the pipe-local ID in the request message: the
    query that came with ID 4660 is handed back with ID 1. *)
Theorem Pipe_process_timeout_keeps_local_id :
  exists ex,
    process 0 ready_pipe sample_msg (fun q => q) time_After = Ok ex /\
    exit_err ex = Some timeoutErr /\
    Id sample_msg = 4660 /\
    Id (exit_msg ex) = 1.
Proof. eexists. repeat split. Qed.

(** C4.  On a pipe whose write-ready flag is unset, [process] returns
    [writeNotReady] whatever the other goroutines do, and changes nothing:
    the pipe with its cache and generator, the allocator and the message
    are as they were. *)
Theorem Pipe_process_not_ready (heap : nat) (p : Pipe) (msg : Msg)
    (others : Pipe -> Pipe) (arm : SelectArm) :
  writeReady p = false -> Question msg <> [] ->
  exists ex,
    process heap p msg others arm = Ok ex /\
    exit_resp ex = None /\
    exit_err ex = Some writeNotReady /\
    exit_pipe ex = p /\
    SenderCache.cache (cache (exit_pipe ex)) = SenderCache.cache (cache p) /\
    SenderCache.msgIDGen (cache (exit_pipe ex)) = SenderCache.msgIDGen (cache p) /\
    exit_heap ex = heap /\
    exit_msg ex = msg.
Proof.
  intros ER Hq. rewrite (process_rejected _ _ _ _ _ ER Hq).
  eexists. split; [reflexivity|]. simpl. repeat split.
Qed.

(** A draining pipe: the pipe that was ready, with the flag unset. *)
Lemma Pipe_process_not_ready_witness :
  exists ex,
    process 0 (setWriteReady ready_pipe false) sample_msg (fun q => q) time_After = Ok ex /\
    exit_err ex = Some writeNotReady /\
    exit_pipe ex = setWriteReady ready_pipe false /\
    exit_msg ex = sample_msg.
Proof.
  destruct (Pipe_process_not_ready 0 (setWriteReady ready_pipe false) sample_msg
              (fun q => q) time_After) as (ex & H & _ & He & Hp & _ & _ & _ & Hm).
  - reflexivity.
  - discriminate.
  - exists ex. repeat split; assumption.
Defined.

(** Resurrection receives every message on offer. *)
Lemma resurrect_receives (queue : list Msg) :
  forall (c : SenderCache.SenderCache) (m : Msg),
    m ∈ queue -> Recv_writeChan m ∈ snd (resurrect c queue).
Proof.
  induction queue as [|req queue IH]; intros c m Hm.
  - inversion Hm.
  - simpl. destruct (SenderCache.getAndRemove c (Id req)) as [c1 sender] eqn:E1.
    specialize (IH c1 m).
    destruct (resurrect c1 queue) as [c2 tr] eqn:E2. simpl in *.
    apply elem_of_cons in Hm as [->|Hm]; [left|].
    right. destruct sender; [right|]; auto.
Qed.

(** Resurrection sends [writeNotReady] to the Sender found under the ID of
    any message on offer. *)
Lemma resurrect_delivers (queue : list Msg) :
  forall (c : SenderCache.SenderCache) (m : Msg) (s : Sender),
    m ∈ queue -> SenderCache.cache c !! Id m = Some s ->
    Send_errChan (errChan s) writeNotReady ∈ snd (resurrect c queue).
Proof.
  induction queue as [|req queue IH]; intros c m s Hm Hs.
  - inversion Hm.
  - simpl.
    pose proof (getAndRemove_result c (Id req)) as Hres.
    pose proof (getAndRemove_cache c (Id req)) as Hcache.
    destruct (SenderCache.getAndRemove c (Id req)) as [c1 sender] eqn:E1.
    specialize (IH c1 m s).
    destruct (resurrect c1 queue) as [c2 tr] eqn:E2. simpl in *.
    destruct (decide (Id m = Id req)) as [Heq|Hne].
    + rewrite <- Heq, Hs in Hres. subst sender. right. left.
    + assert (Hin : m ∈ queue).
      { apply elem_of_cons in Hm as [->|Hm]; [congruence | exact Hm]. }
      assert (Hs1 : SenderCache.cache c1 !! Id m = Some s).
      { rewrite Hcache. rewrite lookup_delete_ne; [exact Hs | congruence]. }
      right. destruct sender; [right|]; auto.
Qed.

(** Resurrection sends nothing but [writeNotReady], and only on error
    channels. *)
Lemma resurrect_only_writeNotReady (queue : list Msg) :
  forall (c : SenderCache.SenderCache) (e : Effect),
    e ∈ snd (resurrect c queue) ->
    (exists m, e = Recv_writeChan m /\ m ∈ queue) \/
    (exists s, e = Send_errChan (errChan s) writeNotReady).
Proof.
  induction queue as [|req queue IH]; intros c e He.
  - inversion He.
  - simpl in He.
    destruct (SenderCache.getAndRemove c (Id req)) as [c1 sender] eqn:E1.
    specialize (IH c1 e).
    destruct (resurrect c1 queue) as [c2 tr] eqn:E2. simpl in *.
    apply elem_of_cons in He as [->|He].
    { left. exists req. split; [reflexivity | left]. }
    assert (Htr : e ∈ tr ->
                  (exists m, e = Recv_writeChan m /\ m ∈ req :: queue) \/
                  (exists s, e = Send_errChan (errChan s) writeNotReady)).
    { intros H. destruct (IH H) as [(m & -> & Hm)|Hs]; [left|right; exact Hs].
      exists m. split; [reflexivity | right; exact Hm]. }
    destruct sender as [s|]; [|auto].
    apply elem_of_cons in He as [->|He]; [right; eauto | auto].
Qed.

(** C8.  When the writer fails on the request [req] that it took from the
    queue, the trace of the pipe is: the call that removes the pipe from
    the driver, the timer for the reader, then [writeNotReady] on the
    error channel of the Sender stored under the ID of [req], and only
    then the effects of resurrection, which receives every message left
    on offer and sends [writeNotReady] to the Sender that the cache holds
    under the ID of any of them. *)
Theorem Pipe_writer_failure (p : Pipe) (o : WriteOutcome) (req : Msg) (queue : list Msg) :
  writeChan p = req :: queue -> o <> write_ok ->
  let c1 := fst (SenderCache.getAndRemove (cache p) (Id req)) in
  let res := resurrect c1 queue in
  exists p',
    writeLoop_recv p o =
      Some (p',
            Recv_writeChan req ::
            Driver_removePipe (this p) ::
            AfterFunc_safeClose_doneR (finalizeTimeout p) ::
            match SenderCache.cache (cache p) !! Id req with
            | Some s => Send_errChan (errChan s) writeNotReady :: snd res
            | None => snd res
            end,
            false) /\
    writeReady p' = false /\
    writeChan p' = [] /\
    cache p' = fst res /\
    (forall m, m ∈ queue -> Recv_writeChan m ∈ snd res) /\
    (forall m s, m ∈ queue -> SenderCache.cache c1 !! Id m = Some s ->
       Send_errChan (errChan s) writeNotReady ∈ snd res) /\
    (forall e, e ∈ snd res ->
       (exists m, e = Recv_writeChan m /\ m ∈ queue) \/
       (exists s, e = Send_errChan (errChan s) writeNotReady)).
Proof.
  intros Hq Ho c1 res. subst c1 res.
  pose proof (getAndRemove_result (cache p) (Id req)) as Hres.
  assert (Hclose : exists p',
    closeWriteLoop (set_writeChan p queue) req =
      (p', Driver_removePipe (this p) ::
           AfterFunc_safeClose_doneR (finalizeTimeout p) ::
           match SenderCache.cache (cache p) !! Id req with
           | Some s => Send_errChan (errChan s) writeNotReady ::
                       snd (resurrect (fst (SenderCache.getAndRemove (cache p) (Id req))) queue)
           | None => snd (resurrect (fst (SenderCache.getAndRemove (cache p) (Id req))) queue)
           end) /\
    writeReady p' = false /\ writeChan p' = [] /\
    cache p' = fst (resurrect (fst (SenderCache.getAndRemove (cache p) (Id req))) queue)).
  { unfold closeWriteLoop, resurrectReqs. simpl.
    rewrite <- Hres.
    destruct (SenderCache.getAndRemove (cache p) (Id req)) as [c1 sender]. simpl.
    destruct (resurrect c1 queue) as [c2 tr]. simpl.
    eexists. split; [reflexivity|]. repeat split. }
  destruct Hclose as (p' & Hclose & Hw & Hch & Hc).
  exists p'. split; [|split; [exact Hw|split; [exact Hch|split; [exact Hc|]]]].
  - unfold writeLoop_recv. rewrite Hq.
    destruct o; [| |congruence]; rewrite Hclose; reflexivity.
  - split; [|split].
    + intros m Hm. apply resurrect_receives. exact Hm.
    + intros m s Hm Hs. eapply resurrect_delivers; eauto.
    + intros e He. eapply resurrect_only_writeNotReady; eauto.
Qed.

(** Two requests are on offer, under the pipe-local IDs 1 and 2, and the
    write of the first fails: its Sender (error channel 1) is told first,
    then the second is received and its Sender (error channel 3) told. *)
Lemma Pipe_writer_failure_witness :
  exists p',
    writeLoop_recv two_in_flight write_failed =
      Some (p',
            [ Recv_writeChan (set_Id sample_msg 1);
              Driver_removePipe (this two_in_flight);
              AfterFunc_safeClose_doneR (2 * Second);
              Send_errChan 1%nat writeNotReady;
              Recv_writeChan (set_Id second_msg 2);
              Send_errChan 3%nat writeNotReady ],
            false) /\
    writeChan p' = [].
Proof.
  destruct (Pipe_writer_failure two_in_flight write_failed
              (set_Id sample_msg 1) [set_Id second_msg 2])
    as (p' & H & _ & Hch & _).
  - reflexivity.
  - discriminate.
  - exists p'. split; [exact H | exact Hch].
Defined.

End PipeFacts.

(** ** The pipe driver *)

Section DriverFacts.

Import PipeDriverImpl.

Lemma ready_nonneg (pd : PipeDriverImpl) (b : bool) : 0 <= ready pd b.
Proof. unfold ready. lia. Qed.

Lemma countPipes_fold (l : list Pipe.Ptr) :
  forall a b : Z,
    fold_left
      (fun (acc : Z * Z) (q : Pipe.Ptr) =>
         if Pipe.primary q then (fst acc + 1, snd acc) else (fst acc, snd acc + 1))
      l (a, b)
    = (a + Z.of_nat (length (filter (fun q => Pipe.primary q = true) l)),
       b + Z.of_nat (length (filter (fun q => Pipe.primary q = false) l))).
Proof.
  induction l as [|q l IH]; intros a b; simpl.
  - f_equal; lia.
  - rewrite !filter_cons. destruct (Pipe.primary q) eqn:E; simpl; rewrite IH.
    + repeat case_decide; try congruence. simpl length. f_equal; lia.
    + repeat case_decide; try congruence. simpl length. f_equal; lia.
Qed.

(** [countPipes] counts the Ready pipes of each class. *)
Lemma countPipes_ready (pd : PipeDriverImpl) :
  countPipes pd = (ready pd true, ready pd false).
Proof. unfold countPipes, ready. rewrite countPipes_fold. reflexivity. Qed.

Lemma index_ok {T : Type} (slice : list T) (i : Z) :
  0 <= i < Z.of_nat (length slice) ->
  exists x, index slice i = Ok x /\ x ∈ slice.
Proof.
  intros Hi. unfold index. case_decide; [lia|].
  destruct (slice !! Z.to_nat i) as [x|] eqn:E.
  - exists x. split; [reflexivity|]. eapply list_elem_of_lookup_2; eauto.
  - apply lookup_ge_None in E. lia.
Qed.

Lemma rand_Intn_ok (rt : Runtime) (n : Z) :
  0 < n ->
  exists rt' r, rand_Intn rt n = Ok (rt', r) /\ 0 <= r < n /\
                next_addr rt' = next_addr rt /\ pipeIDGen rt' = pipeIDGen rt.
Proof.
  intros Hn. unfold rand_Intn. case_decide; [lia|].
  eexists. eexists. split; [reflexivity|]. split; [|split; reflexivity].
  apply Z.mod_pos_bound. lia.
Qed.

(** With an upstream configured, [selectUpstream] returns one of the
    upstreams. *)
Lemma selectUpstream_ok (rt : Runtime) (pd : PipeDriverImpl) (primary : bool) :
  upstreams pd <> [] ->
  exists rt' cfg, selectUpstream rt pd primary = Ok (rt', cfg) /\ cfg ∈ upstreams pd.
Proof.
  intros Hne. unfold selectUpstream.
  assert (Hlen : (0 < length (upstreams pd))%nat).
  { destruct (upstreams pd); [congruence | simpl; lia]. }
  destruct (primary || bool_decide (length (upstreams pd) = 1%nat)) eqn:E.
  - destruct (index_ok (upstreams pd) 0) as (cfg & -> & Hin); [lia|]. eauto.
  - apply orb_false_iff in E as [_ E]. apply bool_decide_eq_false in E.
    unfold rand_IntnRange.
    destruct (rand_Intn_ok rt (Z.of_nat (length (upstreams pd)) - 1))
      as (rt' & r & -> & Hr & _); [lia|].
    destruct (index_ok (upstreams pd) (r + 1)) as (cfg & -> & Hin); [lia|]. eauto.
Qed.

Lemma spawned_cons (e : Effect) (tr : list Effect) (b : bool) :
  spawned (e :: tr) b = (if decide (started e = Some b) then 1 else 0) + spawned tr b.
Proof.
  unfold spawned. rewrite filter_cons. case_decide; simpl length; lia.
Qed.

Lemma spawned_app (tr1 tr2 : list Effect) (b : bool) :
  spawned (tr1 ++ tr2) b = spawned tr1 b + spawned tr2 b.
Proof.
  unfold spawned. rewrite filter_app, length_app. lia.
Qed.

(** A loop of [loadPipes] with [turns] turns starts [turns] pipes of its
    class and none of the other, and adds [turns] to its accumulator. *)
Lemma spawn_spec (pd : PipeDriverImpl) (primary : bool) (turns : nat) :
  upstreams pd <> [] ->
  forall (rt : Runtime) (loading : Z),
  exists rt' tr,
    spawn turns rt pd primary loading = Ok (rt', loading + Z.of_nat turns, tr) /\
    spawned tr primary = Z.of_nat turns /\
    spawned tr (negb primary) = 0.
Proof.
  intros Hne. induction turns as [|turns IH]; intros rt loading.
  - exists rt, []. simpl. rewrite Z.add_0_r. repeat split.
  - simpl spawn.
    destruct (selectUpstream_ok rt pd primary Hne) as (rt1 & cfg & -> & _).
    simpl.
    destruct (IH
      {| next_addr := S (next_addr rt1); pipeIDGen := int32_wrap (pipeIDGen rt1 + 1);
         rand_src := rand_src rt1; rand_pos := rand_pos rt1 |} (loading + 1))
      as (rt' & tr & -> & Hs & Ho).
    eexists. eexists. split; [f_equal; f_equal; f_equal; lia|].
    rewrite !spawned_cons. simpl. rewrite Hs, Ho.
    split.
    + case_decide; [lia | congruence].
    + case_decide as E; [|lia]. destruct primary; simpl in E; congruence.
Qed.

(** A loop with no turn does nothing, with or without upstreams. *)
Lemma spawn_zero (rt : Runtime) (pd : PipeDriverImpl) (primary : bool) (loading : Z) :
  spawn 0 rt pd primary loading = Ok (rt, loading, []).
Proof. reflexivity. Qed.

(** Whenever a loop of [loadPipes] completes, it has started [turns] pipes
    of its class and none of the other, and added [turns] to its
    accumulator. *)
Lemma spawn_inv (pd : PipeDriverImpl) (primary : bool) (turns : nat) :
  forall (rt rt' : Runtime) (loading loading' : Z) (tr : list Effect),
    spawn turns rt pd primary loading = Ok (rt', loading', tr) ->
    loading' = loading + Z.of_nat turns /\
    spawned tr primary = Z.of_nat turns /\
    spawned tr (negb primary) = 0.
Proof.
  induction turns as [|turns IH]; intros rt rt' loading loading' tr H.
  - simpl in H. injection H as <- <- <-. repeat split. lia.
  - simpl spawn in H.
    destruct (selectUpstream rt pd primary) as [[rt1 cfg]|]; [|discriminate].
    simpl in H.
    destruct (spawn turns _ pd primary (loading + 1)) as [[[rt3 l3] tr3]|] eqn:E;
      [|discriminate].
    injection H as <- <- <-.
    apply IH in E as (-> & Hs & Ho).
    rewrite !spawned_cons. simpl. rewrite Hs, Ho.
    split; [lia|]. split.
    + case_decide; [lia | congruence].
    + case_decide as E; [|lia]. destruct primary; simpl in E; congruence.
Qed.

(** What [loadPipes] has done whenever it completes. *)
Lemma loadPipes_inv (rt rt' : Runtime) (pd pd' : PipeDriverImpl) (tr : list Effect) :
  loadPipes rt pd = Ok (rt', pd', tr) ->
  pipes pd' = pipes pd /\
  upstreams pd' = upstreams pd /\
  primaryLimit pd' = primaryLimit pd /\
  secondaryLimit pd' = secondaryLimit pd /\
  primaryLoading pd' = primaryLoading pd + spawned tr true /\
  secondaryLoading pd' = secondaryLoading pd + spawned tr false /\
  spawned tr true = Z.max 0 (primaryLimit pd - ready pd true - primaryLoading pd) /\
  spawned tr false =
    if decide (ready pd true = 0)
    then Z.max 0 (secondaryLimit pd - ready pd false - secondaryLoading pd)
    else 0.
Proof.
  unfold loadPipes. rewrite countPipes_ready. intros H.
  case_decide as Hp.
  - destruct (spawn _ rt pd true 0) as [[[rt1 l1] tr1]|] eqn:E1; [|discriminate].
    destruct (spawn _ rt1 _ false 0) as [[[rt2 l2] tr2]|] eqn:E2; [|discriminate].
    injection H as <- <- <-.
    apply spawn_inv in E1 as (-> & Hs1 & Ho1).
    apply spawn_inv in E2 as (-> & Hs2 & Ho2).
    simpl in *. rewrite !spawned_app, Hs1, Hs2, Ho1, Ho2.
    repeat split; lia.
  - destruct (spawn _ rt pd true 0) as [[[rt1 l1] tr1]|] eqn:E1; [|discriminate].
    injection H as <- <- <-.
    apply spawn_inv in E1 as (-> & Hs1 & Ho1).
    simpl in *. rewrite Hs1, Ho1.
    repeat split; lia.
Qed.

(** With an upstream configured, [loadPipes] completes. *)
Lemma loadPipes_ok (rt : Runtime) (pd : PipeDriverImpl) :
  upstreams pd <> [] ->
  exists rt' pd' tr, loadPipes rt pd = Ok (rt', pd', tr).
Proof.
  intros Hne. unfold loadPipes. destruct (countPipes pd) as [primary secondary].
  case_decide.
  - destruct (spawn_spec pd true (Z.to_nat (primaryLimit pd - primaryLoading pd)) Hne rt 0)
      as (rt1 & tr1 & -> & _).
    match goal with
    | |- context [spawn ?n rt1 ?pd1 false 0] =>
        destruct (spawn_spec pd1 false n Hne rt1 0) as (rt2 & tr2 & -> & _)
    end.
    eauto.
  - destruct (spawn_spec pd true
                (Z.to_nat (primaryLimit pd - primary - primaryLoading pd)) Hne rt 0)
      as (rt1 & tr1 & -> & _).
    eauto.
Qed.

(** C6.  On a driver with an upstream, whose Ready and loading pipes are
    within the limit of each class, [loadPipes] completes; with no Ready
    primary pipe it starts [primaryLimit - primaryLoading] primary pipes
    and [secondaryLimit - secondary - secondaryLoading] secondary pipes,
    otherwise it starts [primaryLimit - primary - primaryLoading] primary
    pipes and no secondary pipe; each loading counter grows by the number
    of pipes of its class that were started, and nothing else in the
    driver changes. *)
Theorem Driver_loadPipes_spawns (rt : Runtime) (pd : PipeDriverImpl) :
  upstreams pd <> [] -> within_limit pd true -> within_limit pd false ->
  exists rt' pd' tr,
    loadPipes rt pd = Ok (rt', pd', tr) /\
    (ready pd true = 0 ->
       spawned tr true = primaryLimit pd - primaryLoading pd /\
       spawned tr false = secondaryLimit pd - ready pd false - secondaryLoading pd) /\
    (ready pd true > 0 ->
       spawned tr true = primaryLimit pd - ready pd true - primaryLoading pd /\
       spawned tr false = 0) /\
    primaryLoading pd' = primaryLoading pd + spawned tr true /\
    secondaryLoading pd' = secondaryLoading pd + spawned tr false /\
    pipes pd' = pipes pd /\
    upstreams pd' = upstreams pd /\
    primaryLimit pd' = primaryLimit pd /\
    secondaryLimit pd' = secondaryLimit pd.
Proof.
  intros Hne Hp Hs. simpl in Hp, Hs.
  destruct (loadPipes_ok rt pd Hne) as (rt' & pd' & tr & H).
  exists rt', pd', tr. split; [exact H|].
  apply loadPipes_inv in H as (Hpipes & Hups & Hpl & Hsl & Hpload & Hsload & Hst & Hsf).
  split; [|split; [|repeat split; assumption]].
  - intros Hz. rewrite Hst, Hsf. case_decide; lia.
  - intros Hz. rewrite Hst, Hsf. case_decide; lia.
Qed.

(** A cold driver starts 50 pipes of each class. *)
Lemma Driver_loadPipes_spawns_witness :
  exists rt' pd' tr,
    loadPipes sample_rt sample_driver = Ok (rt', pd', tr) /\
    spawned tr true = 50 /\ spawned tr false = 50 /\
    primaryLoading pd' = 50 /\ secondaryLoading pd' = 50.
Proof.
  destruct (Driver_loadPipes_spawns sample_rt sample_driver)
    as (rt' & pd' & tr & H & Hcold & _ & Hp & Hs & _).
  - discriminate.
  - vm_compute. discriminate.
  - vm_compute. discriminate.
  - destruct (Hcold eq_refl) as [Ht Hf].
    exists rt', pd', tr. rewrite Hp, Hs, Ht, Hf. repeat split; assumption.
Defined.

Lemma ready_pipeReady (pd : PipeDriverImpl) (pipe : Pipe.Ptr) (b : bool) :
  ready (pipeReady pd pipe) b
  = ready pd b + (if decide (Pipe.primary pipe = b) then 1 else 0).
Proof.
  assert (Hpipes : pipes (pipeReady pd pipe) = pipes pd ++ [pipe]).
  { unfold pipeReady. destruct (Pipe.primary pipe); reflexivity. }
  unfold ready. rewrite Hpipes, filter_app, length_app, filter_cons, filter_nil.
  case_decide; simpl length; lia.
Qed.

Lemma ready_remove (l : list Pipe.Ptr) (i : nat) (b : bool) :
  (length (filter (fun q => Pipe.primary q = b) (remove l i))
   <= length (filter (fun q => Pipe.primary q = b) l))%nat.
Proof.
  unfold remove. destruct (l !! i) as [x|] eqn:E.
  - rewrite <- (take_drop_middle l i x E) at 3.
    rewrite !filter_app, !length_app, filter_cons.
    case_decide; simpl length; lia.
  - apply lookup_ge_None in E.
    rewrite take_ge, drop_ge by lia. rewrite app_nil_r. lia.
Qed.

Lemma ready_removePipe (pd : PipeDriverImpl) (pipe : Pipe.Ptr) (b : bool) :
  ready (removePipe pd pipe) b <= ready pd b.
Proof.
  unfold removePipe.
  destruct (list_find _ (pipes pd)) as [[i x]|]; [|lia].
  unfold ready. simpl. pose proof (ready_remove (pipes pd) i b). lia.
Qed.

(** Each operation on the driver keeps the pool of each class within its
    limit. *)
Lemma step_within_limit (s s' : Runtime * PipeDriverImpl) (b : bool) :
  step s s' -> within_limit (snd s) b -> within_limit (snd s') b.
Proof.
  intros Hstep. destruct Hstep as [rt pd rt' pd' tr H|rt pd pipe|rt pd pipe rt' tr H|rt pd pipe];
    simpl; intros Hin.
  - apply loadPipes_inv in H as (Hpipes & _ & Hpl & Hsl & Hpload & Hsload & Hst & Hsf).
    assert (Hr : forall c, ready pd' c = ready pd c).
    { intros c. unfold ready. rewrite Hpipes. reflexivity. }
    pose proof (ready_nonneg pd false).
    destruct b; simpl in *; rewrite Hr.
    + rewrite Hpl, Hpload, Hst. lia.
    + rewrite Hsl, Hsload, Hsf. case_decide; lia.
  - pose proof (ready_pipeReady pd pipe b) as Hr.
    unfold within_limit in *. unfold pipeReady in *.
    destruct b; destruct (Pipe.primary pipe); simpl in *; rewrite Hr; lia.
  - exact Hin.
  - pose proof (ready_removePipe pd pipe b) as Hr.
    unfold within_limit in *. unfold removePipe in *.
    destruct (list_find _ (pipes pd)) as [[i x]|]; [|exact Hin].
    destruct b; simpl in *; lia.
Qed.

(** C7.  In every state that the operations [loadPipes], [pipeReady],
    [pipeInitFailed] and [removePipe] reach from a new driver, the number
    of Ready pipes of a class plus the loading counter of that class is at
    most the limit of that class. *)
Theorem Driver_pool_within_limits (ups : list ConnConfig)
    (s : Runtime * PipeDriverImpl) (primary : bool) :
  reachable ups s -> within_limit (snd s) primary.
Proof.
  intros Hreach. induction Hreach as [rt|s s' _ IH Hstep].
  - destruct primary; vm_compute; discriminate.
  - eapply step_within_limit; eauto.
Qed.

(** A cold driver fills its pool, one primary pipe becomes Ready and is
    removed again: the state is reachable and within the limits. *)
Lemma Driver_pool_within_limits_witness :
  exists rt' pd' tr,
    loadPipes sample_rt sample_driver = Ok (rt', pd', tr) /\
    primaryLoading pd' = 50 /\
    ready (pipeReady pd' primary_ptr) true = 1 /\
    within_limit (pipeReady pd' primary_ptr) true /\
    within_limit (removePipe (pipeReady pd' primary_ptr) primary_ptr) true.
Proof.
  destruct (loadPipes sample_rt sample_driver) as [[[rt' pd'] tr]|] eqn:E;
    [|vm_compute in E; discriminate].
  assert (R1 : reachable (upstreams sample_driver) (rt', pd')).
  { eapply reachable_step; [apply (reachable_new _ sample_rt)|].
    eapply step_loadPipes. exact E. }
  assert (R2 : reachable (upstreams sample_driver) (rt', pipeReady pd' primary_ptr)).
  { eapply reachable_step; [exact R1 | apply step_pipeReady]. }
  assert (R3 : reachable (upstreams sample_driver)
                 (rt', removePipe (pipeReady pd' primary_ptr) primary_ptr)).
  { eapply reachable_step; [exact R2 | apply step_removePipe]. }
  exists rt', pd', tr. split; [reflexivity|].
  vm_compute in E. injection E as <- <- <-.
  split; [reflexivity|]. split; [reflexivity|].
  split.
  - exact (Driver_pool_within_limits _ _ true R2).
  - exact (Driver_pool_within_limits _ _ true R3).
Defined.

(** With an empty pool [pick] is [loadPipes] and selects no pipe. *)
Lemma pick_empty (rt : Runtime) (pd : PipeDriverImpl) :
  pipes pd = [] ->
  pick rt pd = match loadPipes rt pd with
               | Panic => Panic
               | Ok (rt1, pd1, tr1) => Ok (rt1, pd1, tr1, None)
               end.
Proof. intros E. unfold pick. rewrite E. reflexivity. Qed.

(** With a pipe in the pool [pick] selects one of the pool and changes
    nothing in the driver. *)
Lemma pick_nonempty (rt : Runtime) (pd : PipeDriverImpl) :
  pipes pd <> [] ->
  exists rt1 pipe, pick rt pd = Ok (rt1, pd, [], Some pipe) /\ pipe ∈ pipes pd.
Proof.
  intros Hne. unfold pick.
  assert (Hlen : (0 < length (pipes pd))%nat).
  { destruct (pipes pd); [congruence | simpl; lia]. }
  case_decide; [lia|].
  destruct (rand_Intn_ok rt (Z.of_nat (length (pipes pd)))) as (rt1 & r & -> & Hr & _);
    [lia|].
  destruct (index_ok (pipes pd) r Hr) as (pipe & -> & Hin). eauto.
Qed.

(** A response comes with every normal return of [Pipe.process] that
    carries no error. *)
Lemma pipe_process_response (heap : nat) (p : Pipe.Pipe) (msg : Msg)
    (others : Pipe.Pipe -> Pipe.Pipe) (arm : Pipe.SelectArm) (ex : Pipe.Exit) :
  Pipe.process heap p msg others arm = Ok ex ->
  Pipe.exit_err ex = None -> exists resp, Pipe.exit_resp ex = Some resp.
Proof.
  intros H He.
  destruct (Question msg) as [|q qs] eqn:EQ.
  { unfold Pipe.process in H. rewrite EQ in H. discriminate. }
  assert (Hq : Question msg <> []) by (rewrite EQ; discriminate).
  destruct (Pipe.writeReady p) eqn:ER.
  - rewrite (process_admitted _ _ _ _ _ ER Hq) in H.
    destruct arm as [r|err|].
    + destruct (Answer r); [discriminate|]. injection H as <-. simpl. eauto.
    + injection H as <-. discriminate.
    + injection H as <-. discriminate.
  - rewrite (process_rejected _ _ _ _ _ ER Hq) in H. injection H as <-. discriminate.
Qed.

(** A turn that returns pairs [RcodeSuccess] with no error and
    [RcodeServerFailure] with an error. *)
Lemma process_turn_return (deadline : Z) (st st' : State) (rd : Round)
    (tr : list Effect) (rcode : Z) (err : option error) :
  process_turn deadline st rd = Return st' tr rcode err ->
  (rcode = RcodeSuccess /\ err = None) \/
  (rcode = RcodeServerFailure /\ exists e, err = Some e).
Proof.
  unfold process_turn. intros H.
  destruct (Question (st_msg st)); [discriminate|].
  destruct (run_callbacks _ _ _) as [[[rt0 pd0] tr0]|]; [|discriminate].
  destruct (pick rt0 pd0) as [[[[rt1 pd1] tr1] [pipe|]]|]; [| |discriminate].
  - destruct (Pipe.process _ _ _ _ _) as [ex|]; [|discriminate].
    destruct (Pipe.exit_err ex) as [e|].
    + destruct (errors_Is e writeNotReady); [discriminate|].
      injection H as <- <- <- <-. right. eauto.
    + destruct (Pipe.exit_resp ex); [|discriminate].
      destruct (rd_sink rd) as [e|]; injection H as <- <- <- <-; [right|left]; eauto.
  - case_decide; [discriminate|]. injection H as <- <- <- <-. right. eauto.
Qed.

Lemma process_loop_return (deadline : Z) (rounds : list Round) :
  forall (st st' : State) (tr tr' : list Effect) (rcode : Z) (err : option error),
    process_loop deadline st tr rounds = Returned st' tr' rcode err ->
    (rcode = RcodeSuccess /\ err = None) \/
    (rcode = RcodeServerFailure /\ exists e, err = Some e).
Proof.
  induction rounds as [|rd rounds IH]; intros st st' tr tr' rcode err H; simpl in H.
  - discriminate.
  - destruct (process_turn deadline st rd) as [st1 tr1 rc1 e1|st1 tr1|] eqn:E.
    + injection H as <- <- <- <-. eapply process_turn_return; eauto.
    + eapply IH; eauto.
    + discriminate.
Qed.

(** C3.  In a turn of the loop of [process] in which [pipe.process] was
    called and returned: on [writeNotReady] the loop goes on to its next
    turn; on any other error it returns [RcodeServerFailure] with that
    error; with no error it writes the response to the sink and returns
    [RcodeSuccess] with no error, or [RcodeServerFailure] with the error
    of the write.  Whenever [process] returns, the code is [RcodeSuccess]
    with no error or [RcodeServerFailure] with an error. *)
Theorem Driver_process_pipe_result :
  (forall (deadline : Z) (st : State) (rd : Round) rt0 pd0 tr0 rt1 pd1 tr1 pipe ex,
     run_callbacks (st_rt st) (st_pd st) (rd_callbacks rd) = Ok (rt0, pd0, tr0) ->
     pick rt0 pd0 = Ok (rt1, pd1, tr1, Some pipe) ->
     Pipe.process (next_addr rt1) (rd_pipe rd pipe) (st_msg st)
                  (rd_others rd) (rd_arm rd) = Ok ex ->
     (Pipe.exit_err ex = Some writeNotReady ->
        process_turn deadline st rd = Continue (after_pipe rt1 pd1 ex) (tr0 ++ tr1)) /\
     (forall err, Pipe.exit_err ex = Some err -> err <> writeNotReady ->
        process_turn deadline st rd
        = Return (after_pipe rt1 pd1 ex) (tr0 ++ tr1) RcodeServerFailure (Some err)) /\
     (Pipe.exit_err ex = None ->
        exists resp, Pipe.exit_resp ex = Some resp /\
          process_turn deadline st rd
          = match rd_sink rd with
            | Some err => Return (after_pipe rt1 pd1 ex)
                                 (tr0 ++ tr1 ++ [Writer_WriteMsg resp])
                                 RcodeServerFailure (Some err)
            | None => Return (after_pipe rt1 pd1 ex)
                             (tr0 ++ tr1 ++ [Writer_WriteMsg resp])
                             RcodeSuccess None
            end)) /\
  (forall rt pd msg entry rounds st tr rcode err,
     process rt pd msg entry rounds = Returned st tr rcode err ->
     (rcode = RcodeSuccess /\ err = None) \/
     (rcode = RcodeServerFailure /\ exists e, err = Some e)).
Proof.
  split.
  - intros deadline st rd rt0 pd0 tr0 rt1 pd1 tr1 pipe ex Hcb Hpick Hproc.
    assert (Hq : exists q qs, Question (st_msg st) = q :: qs).
    { destruct (Question (st_msg st)) eqn:EQ; [|eauto].
      unfold Pipe.process in Hproc. rewrite EQ in Hproc. discriminate. }
    destruct Hq as (q & qs & Hq).
    unfold process_turn. rewrite Hq, Hcb, Hpick, Hproc.
    split; [|split].
    + intros ->. reflexivity.
    + intros err -> Hne. unfold errors_Is.
      rewrite bool_decide_eq_false_2 by exact Hne. reflexivity.
    + intros He. destruct (pipe_process_response _ _ _ _ _ _ Hproc He) as (resp & Hr).
      exists resp. split; [exact Hr|]. rewrite He, Hr.
      destruct (rd_sink rd); reflexivity.
  - intros rt pd msg entry rounds st tr rcode err H.
    unfold process in H. eapply process_loop_return; eauto.
Qed.

(** The one pipe of the pool is found draining and the call is retried;
    the second turn finds it ready, and the answer is written out. *)
Lemma Driver_process_pipe_result_witness :
  exists st1 tr1 st tr rcode err,
    process_turn (500 * Millisecond)
      {| st_rt := sample_rt; st_pd := warm_driver; st_msg := sample_msg |}
      (round_at 0 (Pipe.setWriteReady ready_pipe false) Pipe.time_After)
    = Continue st1 tr1 /\
    process sample_rt warm_driver sample_msg 0 retry_rounds
    = Returned st tr rcode err /\
    rcode = RcodeSuccess /\ err = None /\
    ((rcode = RcodeSuccess /\ err = None) \/
     (rcode = RcodeServerFailure /\ exists e, err = Some e)).
Proof.
  destruct Driver_process_pipe_result as [Hturn Hret].
  do 6 eexists. split; [|split; [|split; [|split]]].
  - eapply (Hturn (500 * Millisecond)
              {| st_rt := sample_rt; st_pd := warm_driver; st_msg := sample_msg |}
              (round_at 0 (Pipe.setWriteReady ready_pipe false) Pipe.time_After));
      reflexivity.
  - reflexivity.
  - reflexivity.
  - reflexivity.
  - eapply (Hret sample_rt warm_driver sample_msg 0 retry_rounds). reflexivity.
Defined.

(** C5.  [process] runs its loop against the deadline of 500 ms after the
    clock at entry.  A turn selects no pipe exactly when it finds the pool
    empty, whatever the loading counters are.  In such a turn, if the
    clock is before the deadline the call sleeps 100 ms and goes on to the
    next turn; otherwise it returns [RcodeServerFailure] with the error
    [no pipe available]. *)
Theorem Driver_process_no_pipe :
  (forall rt pd msg entry rounds,
     process rt pd msg entry rounds
     = process_loop (entry + 500000000)
         {| st_rt := rt; st_pd := pd; st_msg := msg |} [] rounds) /\
  (forall rt pd rt1 pd1 tr1,
     pick rt pd = Ok (rt1, pd1, tr1, None)
     <-> pipes pd = [] /\ loadPipes rt pd = Ok (rt1, pd1, tr1)) /\
  (forall (deadline : Z) (st : State) (tr : list Effect) (rd : Round)
          (rounds : list Round) rt0 pd0 tr0 rt1 pd1 tr1,
     Question (st_msg st) <> [] ->
     run_callbacks (st_rt st) (st_pd st) (rd_callbacks rd) = Ok (rt0, pd0, tr0) ->
     pick rt0 pd0 = Ok (rt1, pd1, tr1, None) ->
     let st1 := {| st_rt := rt1; st_pd := pd1; st_msg := st_msg st |} in
     (rd_now rd < deadline ->
        process_loop deadline st tr (rd :: rounds)
        = process_loop deadline st1 (tr ++ tr0 ++ tr1 ++ [Sleep 100000000]) rounds) /\
     (deadline <= rd_now rd ->
        process_loop deadline st tr (rd :: rounds)
        = Returned st1 (tr ++ tr0 ++ tr1) RcodeServerFailure
                   (Some (errorsNew "no pipe available")))).
Proof.
  split; [reflexivity|]. split.
  - intros rt pd rt1 pd1 tr1. split.
    + intros H. destruct (pipes pd) as [|q l] eqn:E.
      * split; [reflexivity|]. rewrite (pick_empty rt pd E) in H.
        destruct (loadPipes rt pd) as [[[rt2 pd2] tr2]|]; [|discriminate].
        congruence.
      * destruct (pick_nonempty rt pd) as (rt2 & pipe & Hp & _); [congruence|].
        rewrite Hp in H. discriminate.
    + intros [E H]. rewrite (pick_empty rt pd E), H. reflexivity.
  - intros deadline st tr rd rounds rt0 pd0 tr0 rt1 pd1 tr1 Hq Hcb Hpick st1.
    assert (Hturn : process_turn deadline st rd =
                    if decide (rd_now rd < deadline)
                    then Continue st1 (tr0 ++ tr1 ++ [Sleep 100000000])
                    else Return st1 (tr0 ++ tr1) RcodeServerFailure
                                (Some (errorsNew "no pipe available"))).
    { unfold process_turn. destruct (Question (st_msg st)); [congruence|].
      rewrite Hcb, Hpick. reflexivity. }
    split; intros Hnow; simpl; rewrite Hturn; case_decide; try lia; reflexivity.
Qed.

(** A cold driver whose pipes never become Ready: the first turn starts
    the pipes, five turns sleep 100 ms each, and the turn at 500 ms
    returns the failure. *)
Lemma Driver_process_no_pipe_witness :
  exists st tr,
    process sample_rt sample_driver sample_msg 0 cold_rounds
    = Returned st tr RcodeServerFailure (Some (errorsNew "no pipe available")) /\
    slept tr = 500000000 /\
    spawned tr true = 50.
Proof.
  destruct Driver_process_no_pipe as (Hentry & _ & Hturn).
  destruct (loadPipes sample_rt sample_driver) as [[[rt1 pd1] tr1]|] eqn:E;
    [|vm_compute in E; discriminate].
  destruct (Hturn (0 + 500000000)
              {| st_rt := sample_rt; st_pd := sample_driver; st_msg := sample_msg |}
              [] (round_at 0 ready_pipe Pipe.time_After) (tl cold_rounds)
              sample_rt sample_driver [] rt1 pd1 tr1) as [Hsleep _].
  - discriminate.
  - reflexivity.
  - rewrite pick_empty by reflexivity. rewrite E. reflexivity.
  - rewrite Hentry.
    change cold_rounds with (round_at 0 ready_pipe Pipe.time_After :: tl cold_rounds).
    rewrite Hsleep by (simpl; lia).
    vm_compute in E. injection E as <- <- <-.
    eexists. eexists. split; [vm_compute; reflexivity|].
    split; vm_compute; reflexivity.
Defined.

End DriverFacts.

(** * Further properties *)

(** ** Runs of the correlation cache *)

Section CacheRuns.

Import SenderCache.

(** X1.  Taking out the ID that [add] has just handed out returns the
    Sender that [add] returned; the generator keeps its new value, and
    when the key was free before the [add] the map is as it was. *)
Theorem SenderCache_add_then_take (heap : nat) (c : SenderCache) (msg : Msg) :
  let a := add heap c msg in
  let newId := Id (add_msg a) in
  getAndRemove (add_cache a) newId
  = ({| cache := delete newId (cache c); msgIDGen := newId |}, Some (add_sender a)) /\
  (cache c !! newId = None ->
   cache (fst (getAndRemove (add_cache a) newId)) = cache c).
Proof.
  intros a newId. subst a newId.
  assert (E : getAndRemove (add_cache (add heap c msg)) (Id (add_msg (add heap c msg)))
              = ({| cache := delete (Id (add_msg (add heap c msg))) (cache c);
                    msgIDGen := Id (add_msg (add heap c msg)) |},
                 Some (add_sender (add heap c msg)))).
  { unfold getAndRemove. simpl. rewrite lookup_insert_eq.
    rewrite delete_insert_eq. reflexivity. }
  split; [exact E|].
  intros Hfree. rewrite E. simpl. apply delete_id. exact Hfree.
Qed.

(** The first request of a new pipe: after the round trip the cache map is
    empty again. *)
Lemma SenderCache_add_then_take_witness :
  cache (fst (getAndRemove (add_cache (add 0 empty_cache sample_msg)) 1)) = ∅.
Proof.
  destruct (SenderCache_add_then_take 0 empty_cache sample_msg) as [_ H].
  apply H. reflexivity.
Defined.

(** X2.  A Sender is handed out once: a second [getAndRemove] of the same
    ID returns nil and changes nothing. *)
Theorem SenderCache_take_once (c : SenderCache) (id : Z) :
  getAndRemove (fst (getAndRemove c id)) id = (fst (getAndRemove c id), None).
Proof.
  apply getAndRemove_absent. rewrite getAndRemove_cache. apply lookup_delete_eq.
Qed.

Lemma uint16_wrap_succ (z : Z) : uint16_wrap (uint16_wrap z + 1) = uint16_wrap (z + 1).
Proof. unfold uint16_wrap, uint16_modulus. apply Zplus_mod_idemp_l. Qed.

(** The [i]-th of consecutive calls of [add] hands out the generator plus
    [i + 1], wrapped. *)
Lemma add_ids_lookup (msgs : list Msg) :
  forall (heap : nat) (c : SenderCache) (i : nat) (id : Z),
    add_ids heap c msgs !! i = Some id ->
    id = uint16_wrap (msgIDGen c + Z.of_nat i + 1).
Proof.
  induction msgs as [|msg msgs IH]; intros heap c i id H; [discriminate|].
  destruct i as [|i]; simpl in H.
  - injection H as <-. f_equal. lia.
  - apply IH in H. simpl in H. subst id.
    replace (uint16_wrap (msgIDGen c + 1) + Z.of_nat i + 1)
      with (uint16_wrap (msgIDGen c + 1) + 1 + Z.of_nat i) by lia.
    unfold uint16_wrap, uint16_modulus.
    rewrite <- Zplus_mod_idemp_l.
    rewrite (Zplus_mod_idemp_l (msgIDGen c + 1) 1).
    rewrite Zplus_mod_idemp_l. f_equal. lia.
Qed.

Lemma add_ids_length (msgs : list Msg) :
  forall (heap : nat) (c : SenderCache), length (add_ids heap c msgs) = length msgs.
Proof. induction msgs as [|msg msgs IH]; intros heap c; simpl; [|rewrite IH]; reflexivity. Qed.

(** X3.  Consecutive admissions on a pipe get consecutive IDs modulo 2^16:
    two admissions fewer than 65536 apart get different IDs, and two that
    are exactly 65536 apart get the same ID. *)
Theorem SenderCache_ids_window (heap : nat) (c : SenderCache) (msgs : list Msg)
    (i j : nat) (a b : Z) :
  add_ids heap c msgs !! i = Some a ->
  add_ids heap c msgs !! j = Some b ->
  (i < j)%nat ->
  (Z.of_nat j - Z.of_nat i < 65536 -> a <> b) /\
  (Z.of_nat j - Z.of_nat i = 65536 -> a = b).
Proof.
  intros Hi Hj Hlt.
  apply add_ids_lookup in Hi. apply add_ids_lookup in Hj. subst a b.
  unfold uint16_wrap, uint16_modulus.
  set (x := msgIDGen c + Z.of_nat i + 1).
  set (d := Z.of_nat j - Z.of_nat i).
  assert (Ex : msgIDGen c + Z.of_nat j + 1 = x + d) by (subst x d; lia).
  assert (Hd0 : 0 < d) by (subst d; lia).
  rewrite Ex. split.
  - intros Hd Heq.
    pose proof (Z.div_mod x 65536 ltac:(lia)) as D1.
    pose proof (Z.div_mod (x + d) 65536 ltac:(lia)) as D2.
    rewrite <- Heq in D2. lia.
  - intros ->. change 65536 with (1 * 65536) at 2.
    rewrite Z.mod_add by lia. reflexivity.
Qed.

(** From a generator at 65535 the next three admissions get 0, 1 and 2. *)
Lemma SenderCache_ids_window_witness :
  add_ids 2 wrapping_cache [sample_msg; sample_msg; sample_msg] = [0; 1; 2] /\
  0 <> 2.
Proof.
  split; [reflexivity|].
  destruct (SenderCache_ids_window 2 wrapping_cache [sample_msg; sample_msg; sample_msg]
              0 2 0 2) as [H _].
  - reflexivity.
  - reflexivity.
  - lia.
  - apply H. lia.
Defined.

(** One call keeps the cache well formed, its error channels distinct and
    its keys and generator in the range of [uint16]. *)
Lemma run_op_invariant (st : nat * SenderCache) (op : cache_op) :
  cache_wf (fst st) (snd st) ->
  errChans_distinct (snd st) ->
  (forall k s, cache (snd st) !! k = Some s -> is_uint16 k) ->
  is_uint16 (msgIDGen (snd st)) ->
  cache_wf (fst (run_op st op)) (snd (run_op st op)) /\
  errChans_distinct (snd (run_op st op)) /\
  (forall k s, cache (snd (run_op st op)) !! k = Some s -> is_uint16 k) /\
  is_uint16 (msgIDGen (snd (run_op st op))) /\
  (fst st <= fst (run_op st op))%nat.
Proof.
  destruct st as [heap c]. intros Hwf Hd Hk Hg. destruct op as [msg|id]; simpl in *.
  - split; [apply (add_wf heap c msg Hwf)|].
    split; [|split; [|split; [apply uint16_wrap_range | lia]]].
    + intros k1 k2 s1 s2 H1 H2 He. simpl in H1, H2.
      destruct Hwf as [Hlt _].
      apply lookup_insert_Some in H1 as [[E1 <-]|[N1 H1]];
        apply lookup_insert_Some in H2 as [[E2 <-]|[N2 H2]].
      * congruence.
      * apply Hlt in H2. simpl in He. lia.
      * apply Hlt in H1. simpl in He. lia.
      * eapply Hd; eauto.
    + intros k s H. simpl in H. apply lookup_insert_Some in H as [[<- _]|[_ H]].
      * apply uint16_wrap_range.
      * eapply Hk; eauto.
  - split; [apply (getAndRemove_wf heap c id Hwf)|].
    split; [|split; [|split; [rewrite getAndRemove_msgIDGen; exact Hg | lia]]].
    + intros k1 k2 s1 s2 H1 H2 He. rewrite getAndRemove_cache in H1, H2.
      apply lookup_delete_Some in H1 as [_ H1].
      apply lookup_delete_Some in H2 as [_ H2]. eapply Hd; eauto.
    + intros k s H. rewrite getAndRemove_cache in H.
      apply lookup_delete_Some in H as [_ H]. eapply Hk; eauto.
Qed.

(** A run of calls keeps what one call keeps. *)
Lemma run_ops_invariant (ops : list cache_op) :
  forall st : nat * SenderCache,
    cache_wf (fst st) (snd st) -> errChans_distinct (snd st) ->
    (forall k s, cache (snd st) !! k = Some s -> is_uint16 k) ->
    is_uint16 (msgIDGen (snd st)) ->
    cache_wf (fst (run_ops st ops)) (snd (run_ops st ops)) /\
    errChans_distinct (snd (run_ops st ops)) /\
    (forall k s, cache (snd (run_ops st ops)) !! k = Some s -> is_uint16 k) /\
    is_uint16 (msgIDGen (snd (run_ops st ops))).
Proof.
  induction ops as [|op ops IH]; intros st Hwf Hd Hk Hg; simpl.
  - auto.
  - destruct (run_op_invariant st op Hwf Hd Hk Hg) as (H1 & H2 & H3 & H4 & _).
    apply IH; assumption.
Qed.

Lemma run_ops_from_empty (heap : nat) (ops : list cache_op) :
  cache_wf (fst (run_ops (heap, empty_cache) ops)) (snd (run_ops (heap, empty_cache) ops)) /\
  errChans_distinct (snd (run_ops (heap, empty_cache) ops)) /\
  (forall k s, cache (snd (run_ops (heap, empty_cache) ops)) !! k = Some s -> is_uint16 k) /\
  is_uint16 (msgIDGen (snd (run_ops (heap, empty_cache) ops))).
Proof.
  assert (E : forall k, cache (snd (heap, empty_cache)) !! k = None).
  { intros k. apply lookup_empty. }
  apply run_ops_invariant.
  - apply empty_cache_wf.
  - intros k1 k2 s1 s2 H. rewrite E in H. discriminate.
  - intros k s H. rewrite E in H. discriminate.
  - unfold is_uint16, uint16_modulus. simpl. lia.
Qed.

(** X4.  Whatever calls of [add] and [getAndRemove] a new cache has seen,
    in whatever order: every Sender in it was allocated, no Sender is
    stored under two keys, no two Senders share an error channel, and the
    keys and the generator are 16-bit values. *)
Theorem SenderCache_run_invariant (heap : nat) (ops : list cache_op) :
  let st := run_ops (heap, empty_cache) ops in
  cache_wf (fst st) (snd st) /\
  errChans_distinct (snd st) /\
  (forall k s, cache (snd st) !! k = Some s -> is_uint16 k) /\
  is_uint16 (msgIDGen (snd st)).
Proof. intros st. subst st. apply run_ops_from_empty. Qed.

(** After two admissions and the removal of the first, the entry that is
    left has a 16-bit key. *)
Lemma SenderCache_run_invariant_witness :
  cache (snd (run_ops (0%nat, empty_cache)
                [op_add sample_msg; op_add second_msg; op_getAndRemove 1]))
    !! 2 = Some other_sender /\
  is_uint16 2.
Proof.
  destruct (SenderCache_run_invariant 0
              [op_add sample_msg; op_add second_msg; op_getAndRemove 1])
    as (_ & _ & Hk & _).
  split; [reflexivity|].
  eapply Hk. reflexivity.
Defined.

End CacheRuns.

(** ** The loops of the pipe *)

Section PipeLoops.

Import Pipe.

Lemma set_cache_same (p : Pipe) : set_cache p (cache p) = p.
Proof. destruct p. reflexivity. Qed.

(** X5.  The reader hands a response to the Sender stored under its ID, on
    the response channel, and removes the entry; a response under whose ID
    nothing is stored is dropped and the pipe is as before.  For a request
    just admitted, the channel is the one that [add] allocated for it. *)
Theorem Pipe_reader_delivery (p : Pipe) (resp : Msg) :
  (forall s, SenderCache.cache (cache p) !! Id resp = Some s ->
     readLoop_recv p resp
     = (set_cache p {| SenderCache.cache := delete (Id resp) (SenderCache.cache (cache p));
                      SenderCache.msgIDGen := SenderCache.msgIDGen (cache p) |},
        [Send_responseChan (responseChan s) resp])) /\
  (SenderCache.cache (cache p) !! Id resp = None -> readLoop_recv p resp = (p, [])) /\
  (forall heap msg, Id resp = next_id p ->
     snd (readLoop_recv (in_flight heap p msg) resp) = [Send_responseChan heap resp] /\
     SenderCache.cache (cache (fst (readLoop_recv (in_flight heap p msg) resp)))
       !! next_id p = None).
Proof.
  split; [|split].
  - intros s Hs. unfold readLoop_recv, SenderCache.getAndRemove. rewrite Hs. reflexivity.
  - intros Hn. unfold readLoop_recv, SenderCache.getAndRemove. rewrite Hn.
    rewrite set_cache_same. reflexivity.
  - intros heap msg Hid. unfold readLoop_recv, SenderCache.getAndRemove.
    rewrite Hid, in_flight_cache. simpl. split; [reflexivity|].
    apply lookup_delete_eq.
Qed.

(** The answer to the first request of a new pipe goes to channel 0, the
    response channel of its Sender. *)
Lemma Pipe_reader_delivery_witness :
  snd (readLoop_recv (in_flight 0 ready_pipe sample_msg) sample_resp)
  = [Send_responseChan 0%nat sample_resp].
Proof.
  destruct (Pipe_reader_delivery ready_pipe sample_resp) as (_ & _ & H).
  destruct (H 0%nat sample_msg) as [Hs _]; [reflexivity | exact Hs].
Defined.

(** X6.  A request that timed out leaves no entry behind: whatever the
    other goroutines did in the meantime, a response that arrives under
    its pipe-local ID afterwards is dropped by the reader, with no send
    and no change of the pipe. *)
Theorem Pipe_late_response_dropped (heap : nat) (p : Pipe) (msg resp : Msg)
    (others : Pipe -> Pipe) :
  writeReady p = true -> Question msg <> [] -> Id resp = next_id p ->
  exists ex,
    process heap p msg others time_After = Ok ex /\
    exit_resp ex = None /\
    exit_err ex = Some timeoutErr /\
    SenderCache.cache (cache (exit_pipe ex)) !! next_id p = None /\
    readLoop_recv (exit_pipe ex) resp = (exit_pipe ex, []).
Proof.
  intros ER Hq Hid. rewrite (process_admitted _ _ _ _ _ ER Hq).
  eexists. split; [reflexivity|]. simpl.
  assert (Hn : SenderCache.cache
                 (fst (SenderCache.getAndRemove
                         (cache (others (in_flight heap p msg))) (next_id p)))
               !! next_id p = None).
  { rewrite getAndRemove_cache. apply lookup_delete_eq. }
  repeat split; [exact Hn|].
  unfold readLoop_recv. rewrite Hid. simpl cache.
  rewrite (getAndRemove_absent _ _ Hn). reflexivity.
Qed.

Lemma Pipe_late_response_dropped_witness :
  exists ex,
    process 0 ready_pipe sample_msg (fun q => q) time_After = Ok ex /\
    readLoop_recv (exit_pipe ex) sample_resp = (exit_pipe ex, []).
Proof.
  destruct (Pipe_late_response_dropped 0 ready_pipe sample_msg sample_resp (fun q => q))
    as (ex & H & _ & _ & _ & Hr).
  - reflexivity.
  - discriminate.
  - reflexivity.
  - exists ex. split; assumption.
Defined.

(** The cache that resurrection leaves. *)
Lemma resurrect_cache (queue : list Msg) :
  forall (c : SenderCache.SenderCache),
    SenderCache.msgIDGen (fst (resurrect c queue)) = SenderCache.msgIDGen c /\
    forall k, SenderCache.cache (fst (resurrect c queue)) !! k
              = if decide (k ∈ map Id queue) then None else SenderCache.cache c !! k.
Proof.
  induction queue as [|req queue IH]; intros c.
  - split; [reflexivity|]. intros k.
    destruct (decide (k ∈ map Id [])) as [E|E]; [inversion E | reflexivity].
  - simpl resurrect.
    pose proof (getAndRemove_cache c (Id req)) as Hc.
    pose proof (getAndRemove_msgIDGen c (Id req)) as Hg.
    destruct (SenderCache.getAndRemove c (Id req)) as [c1 sender].
    destruct (IH c1) as [IHg IHk].
    destruct (resurrect c1 queue) as [c2 tr]. cbn [fst snd] in *.
    split; [congruence|].
    intros k. rewrite IHk, Hc.
    destruct (decide (k ∈ map Id queue)) as [E1|E1];
      destruct (decide (k ∈ map Id (req :: queue))) as [E2|E2]; try reflexivity.
    + exfalso. apply E2. right. exact E1.
    + apply elem_of_cons in E2 as [->|E2]; [apply lookup_delete_eq | contradiction].
    + apply lookup_delete_ne. intros <-. apply E2. left.
Qed.

(** X7.  Resurrection removes from the cache exactly the entries under the
    IDs of the messages that were on offer: the Sender of every request
    that was already written stays in place and can still be answered,
    and the generator is not touched. *)
Theorem Pipe_resurrect_frame (p : Pipe) :
  writeChan (fst (resurrectReqs p)) = [] /\
  SenderCache.msgIDGen (cache (fst (resurrectReqs p))) = SenderCache.msgIDGen (cache p) /\
  forall k, SenderCache.cache (cache (fst (resurrectReqs p))) !! k
            = if decide (k ∈ map Id (writeChan p)) then None
              else SenderCache.cache (cache p) !! k.
Proof.
  unfold resurrectReqs.
  destruct (resurrect_cache (writeChan p) (cache p)) as [Hg Hk].
  destruct (resurrect (cache p) (writeChan p)) as [c tr]. simpl in *.
  repeat split; assumption.
Qed.

Lemma errChan_sends_cons (e : Effect) (tr : list Effect) :
  errChan_sends (e :: tr)
  = match e with
    | Send_errChan c _ => c :: errChan_sends tr
    | _ => errChan_sends tr
    end.
Proof. destruct e; reflexivity. Qed.

(** Every send of resurrection goes to the error channel of a Sender of
    the cache. *)
Lemma resurrect_sends_known (queue : list Msg) :
  forall (c : SenderCache.SenderCache) (ch : chan),
    ch ∈ errChan_sends (snd (resurrect c queue)) ->
    exists k s, SenderCache.cache c !! k = Some s /\ errChan s = ch.
Proof.
  induction queue as [|req queue IH]; intros c ch H.
  - inversion H.
  - simpl resurrect in H.
    pose proof (getAndRemove_cache c (Id req)) as Hc.
    pose proof (getAndRemove_result c (Id req)) as Hr.
    destruct (SenderCache.getAndRemove c (Id req)) as [c1 sender].
    specialize (IH c1 ch).
    destruct (resurrect c1 queue) as [c2 tr]. cbn [fst snd] in *.
    assert (Htl : ch ∈ errChan_sends tr ->
                  exists k s, SenderCache.cache c !! k = Some s /\ errChan s = ch).
    { intros Hin. destruct (IH Hin) as (k & s & Hk & He).
      rewrite Hc in Hk. apply lookup_delete_Some in Hk as [_ Hk]. eauto. }
    rewrite errChan_sends_cons in H.
    destruct sender as [s|]; [|auto].
    rewrite errChan_sends_cons in H.
    apply elem_of_cons in H as [->|H]; [eauto | auto].
Qed.

(** Resurrection sends at most once on any error channel. *)
Lemma resurrect_sends_NoDup (queue : list Msg) :
  forall (c : SenderCache.SenderCache),
    errChans_distinct c -> NoDup (errChan_sends (snd (resurrect c queue))).
Proof.
  induction queue as [|req queue IH]; intros c Hd.
  - constructor.
  - simpl resurrect.
    pose proof (getAndRemove_cache c (Id req)) as Hc.
    pose proof (getAndRemove_result c (Id req)) as Hr.
    destruct (SenderCache.getAndRemove c (Id req)) as [c1 sender].
    cbn [fst snd] in *.
    pose proof (resurrect_sends_known queue c1) as Hk.
    assert (Hd1 : errChans_distinct c1).
    { intros k1 k2 s1 s2 H1 H2 He. rewrite Hc in H1, H2.
      apply lookup_delete_Some in H1 as [_ H1].
      apply lookup_delete_Some in H2 as [_ H2]. eapply Hd; eauto. }
    specialize (IH c1 Hd1).
    destruct (resurrect c1 queue) as [c2 tr]. cbn [fst snd] in *.
    rewrite errChan_sends_cons.
    destruct sender as [s|]; [|exact IH].
    rewrite errChan_sends_cons.
    constructor; [|exact IH].
    intros Hin. destruct (Hk _ Hin) as (k & s' & Hs' & He).
    rewrite Hc in Hs'. apply lookup_delete_Some in Hs' as [Hne Hs'].
    apply Hne. symmetry in Hr. eapply Hd; eauto.
Qed.

(** The sends of a failing writer are those of a resurrection that starts
    with the failing request. *)
Lemma closeWriteLoop_sends (p : Pipe) (req : Msg) :
  errChan_sends (snd (closeWriteLoop p req))
  = errChan_sends (snd (resurrect (cache p) (req :: writeChan p))).
Proof.
  unfold closeWriteLoop, resurrectReqs. cbn -[errChan_sends].
  destruct (SenderCache.getAndRemove (cache p) (Id req)) as [c1 sender].
  cbn -[errChan_sends].
  destruct (resurrect c1 (writeChan p)) as [c2 tr]. cbn -[errChan_sends].
  rewrite !errChan_sends_cons. destruct sender; reflexivity.
Qed.

(** X8.  When the writer fails, no error channel is sent on twice, the
    failing request included, as long as the Senders of the cache have
    error channels of their own (which [add] guarantees). *)
Theorem Pipe_writer_failure_sends_once (p : Pipe) (req : Msg) :
  errChans_distinct (cache p) ->
  NoDup (errChan_sends (snd (closeWriteLoop p req))).
Proof.
  intros Hd. rewrite closeWriteLoop_sends. apply resurrect_sends_NoDup. exact Hd.
Qed.

(** The two requests in flight have the error channels 1 and 3. *)
Lemma Pipe_writer_failure_sends_once_witness :
  errChan_sends (snd (closeWriteLoop two_in_flight (set_Id sample_msg 1))) = [1%nat; 3%nat] /\
  NoDup (errChan_sends (snd (closeWriteLoop two_in_flight (set_Id sample_msg 1)))).
Proof.
  split; [reflexivity|].
  apply Pipe_writer_failure_sends_once.
  change (cache two_in_flight)
    with (snd (run_ops (0%nat, SenderCache.empty_cache)
                 [op_add sample_msg; op_add second_msg])).
  apply run_ops_from_empty.
Defined.

Lemma written_app (tr1 tr2 : list Effect) : written (tr1 ++ tr2) = written tr1 ++ written tr2.
Proof. unfold written. apply omap_app. Qed.

Lemma written_cons (e : Effect) (tr : list Effect) :
  written (e :: tr)
  = match e with
    | Conn_WriteMsg m => m :: written tr
    | _ => written tr
    end.
Proof. destruct e; reflexivity. Qed.

Lemma resurrect_writes_nothing (queue : list Msg) :
  forall c : SenderCache.SenderCache, written (snd (resurrect c queue)) = [].
Proof.
  induction queue as [|req queue IH]; intros c; [reflexivity|].
  simpl resurrect.
  destruct (SenderCache.getAndRemove c (Id req)) as [c1 sender].
  specialize (IH c1). destruct (resurrect c1 queue) as [c2 tr]. cbn [fst snd] in *.
  rewrite written_cons. destruct sender; [rewrite written_cons|]; exact IH.
Qed.

(** The pipe and the trace that a failing writer leaves. *)
Lemma closeWriteLoop_closed (p : Pipe) (req : Msg) :
  writeReady (fst (closeWriteLoop p req)) = false /\
  writeChan (fst (closeWriteLoop p req)) = [] /\
  doneW (fst (closeWriteLoop p req)) = true /\
  written (snd (closeWriteLoop p req)) = [] /\
  (forall m, m ∈ writeChan p -> Recv_writeChan m ∈ snd (closeWriteLoop p req)).
Proof.
  unfold closeWriteLoop, resurrectReqs. cbn -[written].
  destruct (SenderCache.getAndRemove (cache p) (Id req)) as [c1 sender].
  cbn -[written].
  pose proof (resurrect_writes_nothing (writeChan p) c1) as Hw.
  pose proof (resurrect_receives (writeChan p) c1) as Hr.
  destruct (resurrect c1 (writeChan p)) as [c2 tr]. cbn -[written] in *.
  split; [reflexivity|]. split; [reflexivity|].
  split; [destruct (doneW p); reflexivity|].
  split.
  - rewrite !written_cons. destruct sender; [rewrite written_cons|]; exact Hw.
  - intros m Hm. right. right. destruct sender; [right|]; auto.
Qed.

(** X9.  A run of the writer writes a prefix of the messages on offer, in
    the order in which they were offered.  While it runs, it touches
    neither the cache nor an error channel, and the rest of the queue is
    still on offer.  When it has returned, the pipe is not write-ready,
    [doneW] is closed and no message is left behind: the writer or the
    resurrection has received every message that was on offer. *)
Theorem Pipe_writer_run (os : list WriteOutcome) :
  forall p : Pipe,
    let r := writeLoop_turns p os in
    let p' := fst (fst r) in
    let tr := snd (fst r) in
    written tr = take (length (written tr)) (writeChan p) /\
    (length (written tr) <= length os)%nat /\
    (snd r = true ->
       writeChan p' = drop (length (written tr)) (writeChan p) /\
       cache p' = cache p /\ writeReady p' = writeReady p /\
       errChan_sends tr = []) /\
    (snd r = false ->
       writeChan p' = [] /\ writeReady p' = false /\ doneW p' = true /\
       forall m, m ∈ writeChan p -> Recv_writeChan m ∈ tr).
Proof.
  induction os as [|o os IH]; intros p; cbn zeta.
  - simpl. repeat split; try discriminate. lia.
  - simpl writeLoop_turns. unfold writeLoop_recv.
    destruct (writeChan p) as [|req queue] eqn:EQ.
    { simpl. rewrite EQ. repeat split; try discriminate. lia. }
    destruct o.
    + pose proof (closeWriteLoop_closed (set_writeChan p queue) req)
        as (Hr & Hq & Hd & Hw & Hall).
      destruct (closeWriteLoop (set_writeChan p queue) req) as [p2 tr2].
      cbn [fst snd] in *. rewrite written_cons, Hw.
      split; [reflexivity|]. split; [simpl; lia|]. split; [discriminate|].
      intros _. repeat split; try assumption.
      intros m Hm. apply elem_of_cons in Hm as [->|Hm]; [left | right; auto].
    + pose proof (closeWriteLoop_closed (set_writeChan p queue) req)
        as (Hr & Hq & Hd & Hw & Hall).
      destruct (closeWriteLoop (set_writeChan p queue) req) as [p2 tr2].
      cbn [fst snd] in *. rewrite written_cons, Hw.
      split; [reflexivity|]. split; [simpl; lia|]. split; [discriminate|].
      intros _. repeat split; try assumption.
      intros m Hm. apply elem_of_cons in Hm as [->|Hm]; [left | right; auto].
    + specialize (IH (set_writeChan p queue)). cbn zeta in IH.
      destruct (writeLoop_turns (set_writeChan p queue) os) as [[p2 tr2] running].
      cbn [fst snd] in *. simpl writeChan in IH.
      destruct IH as (Hpre & Hlen & Hrun & Hstop).
      change ([Recv_writeChan req; Conn_WriteMsg req] ++ tr2)
        with (Recv_writeChan req :: Conn_WriteMsg req :: tr2).
      rewrite !written_cons. simpl length.
      split; [simpl take; f_equal; exact Hpre|].
      split; [lia|]. split.
      * intros Hb. destruct (Hrun Hb) as (H1 & H2 & H3 & H4).
        repeat split; assumption.
      * intros Hb. destruct (Hstop Hb) as (H1 & H2 & H3 & H4).
        repeat split; try assumption.
        intros m Hm. apply elem_of_cons in Hm as [->|Hm]; [left | right; right; auto].
Qed.

(** Two requests are on offer; the first write succeeds and the second
    fails: the first message is written, the second is received and its
    Sender told, and the queue is empty. *)
Lemma Pipe_writer_run_witness :
  written (snd (fst (writeLoop_turns two_in_flight [write_ok; write_failed])))
  = [set_Id sample_msg 1] /\
  Recv_writeChan (set_Id second_msg 2)
    ∈ snd (fst (writeLoop_turns two_in_flight [write_ok; write_failed])) /\
  writeChan (fst (fst (writeLoop_turns two_in_flight [write_ok; write_failed]))) = [].
Proof.
  destruct (Pipe_writer_run [write_ok; write_failed] two_in_flight)
    as (_ & _ & _ & Hstop).
  destruct (Hstop eq_refl) as (Hq & _ & _ & Hall).
  split; [reflexivity|]. split; [|exact Hq].
  apply Hall. right. left.
Defined.




(** X21.  The round trip of one request through an idle pipe: the writer
    sends the query under the pipe-local ID, the reader hands the response
    that comes back under that ID to the channel of the waiting call, and
    [process] returns it under the ID of the caller.  Afterwards the query
    message is as the caller passed it, nothing is on offer, and the cache
    map is as before, with the generator advanced by one. *)
Theorem Pipe_round_trip_through_loops (heap : nat) (p : Pipe) (msg resp : Msg) :
  writeReady p = true -> Question msg <> [] -> Answer resp <> [] ->
  writeChan p = [] ->
  SenderCache.cache (cache p) !! next_id p = None ->
  Id resp = next_id p ->
  written (snd (fst (writeLoop_turns (in_flight heap p msg) [write_ok])))
  = [set_Id msg (next_id p)] /\
  snd (readLoop_recv (fst (fst (writeLoop_turns (in_flight heap p msg) [write_ok]))) resp)
  = [Send_responseChan heap resp] /\
  exists ex,
    process heap p msg (served resp) (recv_responseChan resp) = Ok ex /\
    exit_resp ex = Some (set_Id resp (Id msg)) /\
    exit_err ex = None /\
    exit_msg ex = msg /\
    writeChan (exit_pipe ex) = [] /\
    SenderCache.cache (cache (exit_pipe ex)) = SenderCache.cache (cache p) /\
    SenderCache.msgIDGen (cache (exit_pipe ex)) = next_id p.
Proof.
  intros ER Hq Ha Hqueue Hfree Hid.
  assert (Hw : writeLoop_turns (in_flight heap p msg) [write_ok]
               = (set_writeChan (in_flight heap p msg) [],
                  [Recv_writeChan (set_Id msg (next_id p));
                   Conn_WriteMsg (set_Id msg (next_id p))], true)).
  { simpl writeLoop_turns. unfold writeLoop_recv.
    rewrite in_flight_queue, Hqueue. reflexivity. }
  assert (Hr : readLoop_recv (set_writeChan (in_flight heap p msg) []) resp
               = (set_cache (set_writeChan (in_flight heap p msg) [])
                    {| SenderCache.cache := SenderCache.cache (cache p);
                       SenderCache.msgIDGen := next_id p |},
                  [Send_responseChan heap resp])).
  { unfold readLoop_recv, SenderCache.getAndRemove. rewrite Hid.
    change (cache (set_writeChan (in_flight heap p msg) []))
      with (cache (in_flight heap p msg)).
    rewrite in_flight_cache. simpl.
    fold (next_id p). rewrite delete_insert_eq, (delete_id _ _ Hfree). reflexivity. }
  rewrite Hw. cbn [fst snd]. rewrite Hr. cbn [fst snd].
  split; [reflexivity|]. split; [reflexivity|].
  rewrite (process_admitted _ _ _ _ _ ER Hq).
  destruct (Answer resp); [congruence|].
  eexists. split; [reflexivity|]. unfold served. rewrite Hw. cbn [fst snd].
  rewrite Hr. repeat split.
Qed.

(** The first request of the sample pipe, answered by the upstream. *)
Lemma Pipe_round_trip_through_loops_witness :
  exists ex,
    process 0 ready_pipe sample_msg (served sample_resp) (recv_responseChan sample_resp)
    = Ok ex /\
    exit_resp ex = Some (set_Id sample_resp 4660) /\
    SenderCache.cache (cache (exit_pipe ex)) = ∅.
Proof.
  destruct (Pipe_round_trip_through_loops 0 ready_pipe sample_msg sample_resp)
    as (_ & _ & ex & H & Hr & _ & _ & _ & Hc & _); try reflexivity; try discriminate.
  exists ex. repeat split; assumption.
Defined.

End PipeLoops.

(** ** The pool of the driver *)

Section DriverPool.

Import PipeDriverImpl.

(** X11.  [selectUpstream] panics when no upstream is configured.  For a
    primary pipe, and when one upstream is configured, it returns the
    first upstream without a random draw.  For a secondary pipe with two
    or more upstreams it makes one draw and returns an upstream at an
    index from 1 on: never the first. *)
Theorem Driver_selectUpstream_choice (rt : Runtime) (pd : PipeDriverImpl) :
  (upstreams pd = [] -> forall primary, selectUpstream rt pd primary = Panic) /\
  (forall cfg rest primary,
     upstreams pd = cfg :: rest -> primary = true \/ rest = [] ->
     selectUpstream rt pd primary = Ok (rt, cfg)) /\
  (forall cfg rest,
     upstreams pd = cfg :: rest -> rest <> [] ->
     exists rt' i cfg',
       selectUpstream rt pd false = Ok (rt', cfg') /\
       (1 <= i < length (upstreams pd))%nat /\
       upstreams pd !! i = Some cfg' /\
       rand_pos rt' = S (rand_pos rt) /\
       next_addr rt' = next_addr rt /\ pipeIDGen rt' = pipeIDGen rt).
Proof.
  split; [|split].
  - intros E primary. unfold selectUpstream. rewrite E. destruct primary; reflexivity.
  - intros cfg rest primary E [->| ->]; unfold selectUpstream; rewrite E.
    + reflexivity.
    + destruct primary; reflexivity.
  - intros cfg rest E Hrest. unfold selectUpstream.
    assert (Hlen : (2 <= length (upstreams pd))%nat).
    { rewrite E. destruct rest; [congruence | simpl; lia]. }
    rewrite bool_decide_eq_false_2 by lia. simpl orb.
    unfold rand_IntnRange.
    destruct (rand_Intn_ok rt (Z.of_nat (length (upstreams pd)) - 1))
      as (rt' & r & Hrand & Hr & Ha & Hg); [lia|].
    rewrite Hrand.
    assert (Hpos : rand_pos rt' = S (rand_pos rt)).
    { unfold rand_Intn in Hrand. case_decide; [discriminate|].
      injection Hrand as <- _. reflexivity. }
    unfold index. case_decide; [lia|].
    destruct (upstreams pd !! Z.to_nat (r + 1)) as [cfg'|] eqn:EL.
    + exists rt', (Z.to_nat (r + 1)), cfg'. repeat split; try assumption; lia.
    + apply lookup_ge_None in EL. lia.
Qed.

(** With two upstreams a secondary pipe gets the second one. *)
Lemma Driver_selectUpstream_choice_witness :
  selectUpstream sample_rt
    (NewDriver [ {| Hostname := "10.0.0.1"; Port := 53 |};
                 {| Hostname := "10.0.0.2"; Port := 53 |} ]) false
  = Ok ({| next_addr := 0; pipeIDGen := 0; rand_src := rand_src sample_rt; rand_pos := 1 |},
        {| Hostname := "10.0.0.2"; Port := 53 |}).
Proof.
  destruct (Driver_selectUpstream_choice sample_rt
              (NewDriver [ {| Hostname := "10.0.0.1"; Port := 53 |};
                           {| Hostname := "10.0.0.2"; Port := 53 |} ]))
    as (_ & _ & H).
  destruct (H _ _ eq_refl) as (rt' & i & cfg' & Hsel & Hi & Hlook & _); [discriminate|].
  reflexivity.
Defined.

(** X12.  [countPipes] counts every pipe of the pool once: the two counts
    are not negative and add up to the length of the pool. *)
Theorem Driver_countPipes_total (pd : PipeDriverImpl) :
  0 <= fst (countPipes pd) /\ 0 <= snd (countPipes pd) /\
  fst (countPipes pd) + snd (countPipes pd) = Z.of_nat (length (pipes pd)).
Proof.
  rewrite countPipes_ready. simpl.
  split; [apply ready_nonneg|]. split; [apply ready_nonneg|].
  unfold ready. induction (pipes pd) as [|q l IH]; [reflexivity|].
  rewrite !filter_cons. destruct (Pipe.primary q);
    repeat case_decide; try congruence; simpl length; lia.
Qed.

(** [selectUpstream] returns one of the upstreams and allocates nothing. *)
Lemma selectUpstream_result (rt rt' : Runtime) (pd : PipeDriverImpl)
    (primary : bool) (cfg : ConnConfig) :
  selectUpstream rt pd primary = Ok (rt', cfg) ->
  cfg ∈ upstreams pd /\ next_addr rt' = next_addr rt /\ pipeIDGen rt' = pipeIDGen rt.
Proof.
  unfold selectUpstream, index, rand_IntnRange, rand_Intn. intros H.
  destruct (primary || bool_decide (length (upstreams pd) = 1%nat)).
  - case_decide; [discriminate|].
    destruct (upstreams pd !! Z.to_nat 0) as [c|] eqn:E; [|discriminate].
    injection H as <- <-. split; [|split; reflexivity].
    eapply list_elem_of_lookup_2; eauto.
  - case_decide; [discriminate|].
    case_decide; [discriminate|].
    match type of H with
    | context [upstreams pd !! ?i] => destruct (upstreams pd !! i) as [c|] eqn:E
    end; [|discriminate].
    injection H as <- <-. split; [|split; reflexivity].
    eapply list_elem_of_lookup_2; eauto.
Qed.

(** X13.  [pipeInitFailed] panics when no upstream is configured;
    otherwise it starts exactly one pipe, of the class of the pipe that
    failed, at a new address, towards one of the upstreams, and the new
    pipe is not yet write-ready. *)
Theorem Driver_pipeInitFailed_replaces (rt : Runtime) (pd : PipeDriverImpl)
    (pipe : Pipe.Ptr) :
  (upstreams pd = [] -> pipeInitFailed rt pd pipe = Panic) /\
  (upstreams pd <> [] ->
   exists rt' p cfg,
     pipeInitFailed rt pd pipe = Ok (rt', [Go_initConn p cfg]) /\
     Pipe.primary (Pipe.this p) = Pipe.primary pipe /\
     Pipe.addr (Pipe.this p) = next_addr rt /\
     next_addr rt' = S (next_addr rt) /\
     Pipe.writeReady p = false /\
     cfg ∈ upstreams pd).
Proof.
  split.
  - intros E. unfold pipeInitFailed, selectUpstream. rewrite E.
    destruct (Pipe.primary pipe); reflexivity.
  - intros Hne. unfold pipeInitFailed.
    destruct (selectUpstream_ok rt pd (Pipe.primary pipe) Hne) as (rt1 & cfg & Hsel & _).
    destruct (selectUpstream_result _ _ _ _ _ Hsel) as (Hin & Ha & _).
    rewrite Hsel. simpl.
    eexists. eexists. eexists. split; [reflexivity|]. simpl.
    repeat split; try assumption; congruence.
Qed.

(** The replacement of a primary pipe that failed to connect. *)
Lemma Driver_pipeInitFailed_replaces_witness :
  exists rt' p cfg,
    pipeInitFailed sample_rt sample_driver primary_ptr = Ok (rt', [Go_initConn p cfg]) /\
    Pipe.primary (Pipe.this p) = true /\
    cfg = {| Hostname := "127.0.0.1"; Port := 53 |}.
Proof.
  destruct (Driver_pipeInitFailed_replaces sample_rt sample_driver primary_ptr) as [_ H].
  destruct H as (rt' & p & cfg & Hf & Hp & _ & _ & _ & Hin); [discriminate|].
  exists rt', p, cfg. split; [exact Hf|]. split; [exact Hp|].
  apply list_elem_of_singleton in Hin. exact Hin.
Defined.






Lemma set_primaryLoading_same (pd : PipeDriverImpl) (n : Z) :
  n = primaryLoading pd -> set_primaryLoading pd n = pd.
Proof. intros ->. destruct pd. reflexivity. Qed.

Lemma set_secondaryLoading_same (pd : PipeDriverImpl) (n : Z) :
  n = secondaryLoading pd -> set_secondaryLoading pd n = pd.
Proof. intros ->. destruct pd. reflexivity. Qed.

(** X15.  [loadPipes] fills the pool once: a second call, made before any
    pipe has reported back, starts no pipe and changes neither the driver
    nor the runtime. *)
Theorem Driver_loadPipes_idempotent (rt rt1 : Runtime) (pd pd1 : PipeDriverImpl)
    (tr1 : list Effect) :
  loadPipes rt pd = Ok (rt1, pd1, tr1) ->
  loadPipes rt1 pd1 = Ok (rt1, pd1, []).
Proof.
  intros H.
  apply loadPipes_inv in H as (Hpipes & _ & Hpl & Hsl & Hpload & Hsload & Hst & Hsf).
  assert (Hr : forall c, ready pd1 c = ready pd c).
  { intros c. unfold ready. rewrite Hpipes. reflexivity. }
  pose proof (ready_nonneg pd true) as Hn1.
  unfold loadPipes. rewrite countPipes_ready.
  destruct (decide (ready pd1 true = 0)) as [E|E].
  - rewrite Hr in E.
    assert (Z1 : Z.to_nat (primaryLimit pd1 - primaryLoading pd1) = 0%nat) by lia.
    rewrite Z1. simpl spawn. cbv iota beta.
    rewrite (set_primaryLoading_same pd1) by lia.
    assert (Z2 : Z.to_nat (secondaryLimit pd1 - ready pd1 false - secondaryLoading pd1)
                 = 0%nat).
    { rewrite Hr, Hsl, Hsload, Hsf. rewrite decide_True by exact E. lia. }
    rewrite Z2. simpl spawn. cbv iota beta.
    rewrite (set_secondaryLoading_same pd1) by lia. reflexivity.
  - rewrite Hr in E.
    assert (Z1 : Z.to_nat (primaryLimit pd1 - ready pd1 true - primaryLoading pd1)
                 = 0%nat) by (rewrite Hr; lia).
    rewrite Z1. simpl spawn. cbv iota beta.
    rewrite (set_primaryLoading_same pd1) by lia. reflexivity.
Qed.

(** After the cold start of the sample driver a second fill starts
    nothing. *)
Lemma Driver_loadPipes_idempotent_witness :
  exists rt1 pd1 tr1,
    loadPipes sample_rt sample_driver = Ok (rt1, pd1, tr1) /\
    spawned tr1 true = 50 /\
    loadPipes rt1 pd1 = Ok (rt1, pd1, []).
Proof.
  destruct (loadPipes sample_rt sample_driver) as [[[rt1 pd1] tr1]|] eqn:E;
    [|vm_compute in E; discriminate].
  exists rt1, pd1, tr1. split; [reflexivity|].
  split.
  - vm_compute in E. injection E as <- <- <-. reflexivity.
  - apply (Driver_loadPipes_idempotent sample_rt rt1 sample_driver pd1 tr1). exact E.
Defined.






End DriverPool.

(** ** The request path of the driver *)

Section DriverRequests.

Import PipeDriverImpl.

Lemma sink_writes_app (tr1 tr2 : list Effect) :
  sink_writes (tr1 ++ tr2) = sink_writes tr1 ++ sink_writes tr2.
Proof. unfold sink_writes. apply omap_app. Qed.

Lemma slept_app (tr1 tr2 : list Effect) : slept (tr1 ++ tr2) = slept tr1 + slept tr2.
Proof.
  unfold slept. induction tr1 as [|e tr1 IH]; simpl; [reflexivity|].
  rewrite IH. destruct e; lia.
Qed.

(** The loops of [loadPipes] only start pipes. *)
Lemma spawn_quiet (pd : PipeDriverImpl) (primary : bool) (turns : nat) :
  forall (rt rt' : Runtime) (loading loading' : Z) (tr : list Effect),
    spawn turns rt pd primary loading = Ok (rt', loading', tr) ->
    sink_writes tr = [] /\ slept tr = 0.
Proof.
  induction turns as [|turns IH]; intros rt rt' loading loading' tr H.
  - simpl in H. injection H as <- <- <-. split; reflexivity.
  - simpl spawn in H.
    destruct (selectUpstream rt pd primary) as [[rt1 cfg]|]; [|discriminate].
    simpl in H.
    destruct (spawn turns _ pd primary (loading + 1)) as [[[rt3 l3] tr3]|] eqn:E;
      [|discriminate].
    injection H as <- <- <-. apply IH in E as [H1 H2]. split; assumption.
Qed.

Lemma loadPipes_quiet (rt rt' : Runtime) (pd pd' : PipeDriverImpl) (tr : list Effect) :
  loadPipes rt pd = Ok (rt', pd', tr) -> sink_writes tr = [] /\ slept tr = 0.
Proof.
  unfold loadPipes. destruct (countPipes pd) as [primary secondary]. intros H.
  case_decide.
  - destruct (spawn _ rt pd true 0) as [[[rt1 l1] tr1]|] eqn:E1; [|discriminate].
    destruct (spawn _ rt1 _ false 0) as [[[rt2 l2] tr2]|] eqn:E2; [|discriminate].
    injection H as <- <- <-.
    apply spawn_quiet in E1 as [A1 B1]. apply spawn_quiet in E2 as [A2 B2].
    rewrite sink_writes_app, slept_app, A1, A2, B1, B2. split; reflexivity.
  - destruct (spawn _ rt pd true 0) as [[[rt1 l1] tr1]|] eqn:E1; [|discriminate].
    injection H as <- <- <-. eapply spawn_quiet; eauto.
Qed.

Lemma run_callbacks_quiet (cbs : list Callback) :
  forall (rt rt' : Runtime) (pd pd' : PipeDriverImpl) (tr : list Effect),
    run_callbacks rt pd cbs = Ok (rt', pd', tr) -> sink_writes tr = [] /\ slept tr = 0.
Proof.
  induction cbs as [|cb cbs IH]; intros rt rt' pd pd' tr H; simpl in H.
  - injection H as <- <- <-. split; reflexivity.
  - destruct (run_callback rt pd cb) as [[[rt1 pd1] tr1]|] eqn:E1; [|discriminate].
    destruct (run_callbacks rt1 pd1 cbs) as [[[rt2 pd2] tr2]|] eqn:E2; [|discriminate].
    injection H as <- <- <-. apply IH in E2 as [A2 B2].
    assert (Q1 : sink_writes tr1 = [] /\ slept tr1 = 0).
    { destruct cb as [p|p|p]; simpl in E1.
      - injection E1 as <- <- <-. split; reflexivity.
      - unfold pipeInitFailed in E1.
        destruct (selectUpstream rt pd (Pipe.primary p)) as [[rt3 cfg]|]; [|discriminate].
        simpl in E1. injection E1 as <- <- <-. split; reflexivity.
      - injection E1 as <- <- <-. split; reflexivity. }
    destruct Q1 as [A1 B1].
    rewrite sink_writes_app, slept_app, A1, A2, B1, B2. split; reflexivity.
Qed.

Lemma pick_quiet (rt rt1 : Runtime) (pd pd1 : PipeDriverImpl) (tr1 : list Effect)
    (o : option Pipe.Ptr) :
  pick rt pd = Ok (rt1, pd1, tr1, o) -> sink_writes tr1 = [] /\ slept tr1 = 0.
Proof.
  unfold pick. intros H. case_decide.
  - destruct (loadPipes rt pd) as [[[rt2 pd2] tr2]|] eqn:E; [|discriminate].
    injection H as <- <- <- <-. eapply loadPipes_quiet; eauto.
  - destruct (rand_Intn rt _) as [[rt2 i]|]; [|discriminate].
    destruct (index (pipes pd) i); [|discriminate].
    injection H as <- <- <- <-. split; reflexivity.
Qed.

(** How [Pipe.process] hands back the request and the response. *)
Lemma pipe_process_exit (heap : nat) (p : Pipe.Pipe) (msg : Msg)
    (others : Pipe.Pipe -> Pipe.Pipe) (arm : Pipe.SelectArm) (ex : Pipe.Exit) :
  Pipe.process heap p msg others arm = Ok ex ->
  (Pipe.exit_msg ex = msg /\
   forall resp, Pipe.exit_resp ex = Some resp -> Id resp = Id msg) \/
  (Pipe.exit_err ex = Some timeoutErr /\ Pipe.exit_resp ex = None).
Proof.
  intros H.
  destruct (Question msg) as [|q qs] eqn:EQ.
  { unfold Pipe.process in H. rewrite EQ in H. discriminate. }
  assert (Hq : Question msg <> []) by (rewrite EQ; discriminate).
  destruct (Pipe.writeReady p) eqn:ER.
  - rewrite (process_admitted _ _ _ _ _ ER Hq) in H.
    destruct arm as [r|err|].
    + destruct (Answer r); [discriminate|]. injection H as <-. left. simpl.
      split; [reflexivity|]. intros resp Hr. injection Hr as <-. reflexivity.
    + injection H as <-. left. simpl. split; [reflexivity | discriminate].
    + injection H as <-. right. split; reflexivity.
  - rewrite (process_rejected _ _ _ _ _ ER Hq) in H. injection H as <-. left. simpl.
    split; [reflexivity | discriminate].
Qed.

(** A turn that goes on has written nothing to the sink and hands the
    request on as it got it; a turn that returns has written at most one
    response, and with [RcodeSuccess] exactly one, last, under the ID of
    the request. *)
Lemma process_turn_sink (deadline : Z) (st : State) (rd : Round) :
  match process_turn deadline st rd with
  | Continue st' tr => sink_writes tr = [] /\ st_msg st' = st_msg st
  | Return st' tr rcode err =>
      (length (sink_writes tr) <= 1)%nat /\
      (rcode = RcodeSuccess ->
       st_msg st' = st_msg st /\
       exists resp, sink_writes tr = [resp] /\ last tr = Some (Writer_WriteMsg resp) /\
                    Id resp = Id (st_msg st))
  | Crash => True
  end.
Proof.
  unfold process_turn.
  destruct (Question (st_msg st)); [exact I|].
  destruct (run_callbacks _ _ _) as [[[rt0 pd0] tr0]|] eqn:Ecb; [|exact I].
  apply run_callbacks_quiet in Ecb as [A0 _].
  destruct (pick rt0 pd0) as [[[[rt1 pd1] tr1] [pipe|]]|] eqn:Epick; [| |exact I].
  - apply pick_quiet in Epick as [A1 _].
    destruct (Pipe.process _ _ _ _ _) as [ex|] eqn:Eproc; [|exact I].
    apply pipe_process_exit in Eproc as Hex.
    destruct (Pipe.exit_err ex) as [e|] eqn:Eerr.
    + destruct (errors_Is e writeNotReady) eqn:Eis.
      * split; [rewrite sink_writes_app, A0, A1; reflexivity|].
        destruct Hex as [[Hm _]|[Ht _]]; [exact Hm|].
        injection Ht as ->. discriminate.
      * split; [rewrite sink_writes_app, A0, A1; simpl; lia | discriminate].
    + destruct (Pipe.exit_resp ex) as [resp|] eqn:Eresp; [|exact I].
      destruct Hex as [[Hm Hid]|[Ht _]]; [|discriminate].
      assert (Hs : sink_writes (tr0 ++ tr1 ++ [Writer_WriteMsg resp]) = [resp]).
      { rewrite !sink_writes_app, A0, A1. reflexivity. }
      assert (Hl : last (tr0 ++ tr1 ++ [Writer_WriteMsg resp])
                   = Some (Writer_WriteMsg resp)).
      { rewrite app_assoc. apply last_snoc. }
      destruct (rd_sink rd); (split; [rewrite Hs; simpl; lia|]).
      * discriminate.
      * intros _. split; [exact Hm|]. exists resp. auto.
  - apply pick_quiet in Epick as [A1 _].
    case_decide.
    + split; [|reflexivity]. rewrite !sink_writes_app, A0, A1. reflexivity.
    + split; [rewrite sink_writes_app, A0, A1; simpl; lia | discriminate].
Qed.

Lemma process_loop_sink (deadline : Z) (rounds : list Round) :
  forall (st : State) (tr : list Effect),
    sink_writes tr = [] ->
    match process_loop deadline st tr rounds with
    | Running st' tr' => sink_writes tr' = [] /\ st_msg st' = st_msg st
    | Returned st' tr' rcode err =>
        (length (sink_writes tr') <= 1)%nat /\
        (rcode = RcodeSuccess ->
         st_msg st' = st_msg st /\
         exists resp, sink_writes tr' = [resp] /\
                      last tr' = Some (Writer_WriteMsg resp) /\
                      Id resp = Id (st_msg st))
    | Crashed => True
    end.
Proof.
  induction rounds as [|rd rounds IH]; intros st tr Htr; simpl.
  - auto.
  - pose proof (process_turn_sink deadline st rd) as Hturn.
    destruct (process_turn deadline st rd) as [st1 tr1 rc e|st1 tr1|]; [| |exact I].
    + destruct Hturn as [Hlen Hok]. rewrite sink_writes_app, Htr. simpl.
      split; [exact Hlen|]. intros Hrc. destruct (Hok Hrc) as (Hm & resp & Hs & Hl & Hid).
      split; [exact Hm|]. exists resp. repeat split; try assumption.
      destruct tr1 as [|e1 tr1]; [discriminate|].
      rewrite last_app. rewrite Hl. reflexivity.
    + destruct Hturn as [Hs Hm].
      specialize (IH st1 (tr ++ tr1)).
      rewrite sink_writes_app, Htr, Hs in IH. specialize (IH eq_refl).
      rewrite Hm in IH. exact IH.
Qed.

(** X16.  [process] writes to the sink at most once.  When it returns
    [RcodeSuccess] it has written exactly one response, as its last
    action, that response carries the ID of the query, and the query
    message is as the caller passed it, however many pipes had refused it
    before.  While it is still in its loop it has written nothing and the
    query is unchanged. *)
Theorem Driver_process_answers_once (rt : Runtime) (pd : PipeDriverImpl) (msg : Msg)
    (entry : Z) (rounds : list Round) :
  match process rt pd msg entry rounds with
  | Running st tr => sink_writes tr = [] /\ st_msg st = msg
  | Returned st tr rcode err =>
      (length (sink_writes tr) <= 1)%nat /\
      (rcode = RcodeSuccess ->
       st_msg st = msg /\
       exists resp, sink_writes tr = [resp] /\
                    last tr = Some (Writer_WriteMsg resp) /\
                    Id resp = Id msg)
  | Crashed => True
  end.
Proof.
  unfold process.
  apply (process_loop_sink (entry + 500 * Millisecond) rounds
           {| st_rt := rt; st_pd := pd; st_msg := msg |} []).
  reflexivity.
Qed.

(** The query 4660 is refused by the draining pipe, retried and answered:
    one response, with ID 4660. *)
Lemma Driver_process_answers_once_witness :
  exists st tr resp,
    process sample_rt warm_driver sample_msg 0 retry_rounds
    = Returned st tr RcodeSuccess None /\
    sink_writes tr = [resp] /\ Id resp = 4660 /\ st_msg st = sample_msg.
Proof.
  pose proof (Driver_process_answers_once sample_rt warm_driver sample_msg 0 retry_rounds)
    as H.
  destruct (process sample_rt warm_driver sample_msg 0 retry_rounds)
    as [st tr rcode err| |] eqn:E; try (vm_compute in E; discriminate).
  assert (Hrc : rcode = RcodeSuccess /\ err = None).
  { vm_compute in E. injection E as _ _ <- <-. split; reflexivity. }
  destruct Hrc as [-> ->].
  destruct H as [_ H]. destruct (H eq_refl) as (Hm & resp & Hs & _ & Hid).
  exists st, tr, resp. repeat split; assumption.
Defined.

(** X17.  The deadline and the clock matter only to a turn that finds the
    pool empty: with a pipe in the pool the turn is the same whatever the
    deadline and the clock are, and when it goes on to the next turn, on
    [writeNotReady], it has not slept and has not changed the driver. *)
Theorem Driver_deadline_only_without_pipes (d1 d2 now' : Z) (st : State) (rd : Round)
    (rt0 : Runtime) (pd0 : PipeDriverImpl) (tr0 : list Effect) :
  run_callbacks (st_rt st) (st_pd st) (rd_callbacks rd) = Ok (rt0, pd0, tr0) ->
  pipes pd0 <> [] ->
  process_turn d1 st rd = process_turn d2 st (at_clock rd now') /\
  (forall st' tr, process_turn d1 st rd = Continue st' tr ->
     slept tr = 0 /\ st_pd st' = pd0).
Proof.
  intros Hcb Hne.
  destruct (pick_nonempty rt0 pd0 Hne) as (rt1 & pipe & Hpick & _).
  apply run_callbacks_quiet in Hcb as Hq. destruct Hq as [_ Hs0].
  split.
  - unfold process_turn, at_clock. simpl. rewrite Hcb, Hpick. reflexivity.
  - intros st' tr. unfold process_turn.
    destruct (Question (st_msg st)); [discriminate|].
    rewrite Hcb, Hpick.
    destruct (Pipe.process _ _ _ _ _) as [ex|]; [|discriminate].
    destruct (Pipe.exit_err ex) as [e|].
    + destruct (errors_Is e writeNotReady); [|discriminate].
      intros H. injection H as <- <-. rewrite slept_app, Hs0. split; reflexivity.
    + destruct (Pipe.exit_resp ex); [|discriminate].
      destruct (rd_sink rd); discriminate.
Qed.

(** A draining pipe in the pool, long after the deadline: the call goes
    on to the next turn all the same. *)
Lemma Driver_deadline_only_without_pipes_witness :
  exists st' tr,
    process_turn (500 * Millisecond)
      {| st_rt := sample_rt; st_pd := warm_driver; st_msg := sample_msg |}
      (round_at (3600 * Second) (Pipe.setWriteReady ready_pipe false) Pipe.time_After)
    = Continue st' tr /\ slept tr = 0.
Proof.
  destruct (Driver_deadline_only_without_pipes (500 * Millisecond) (500 * Millisecond) 0
              {| st_rt := sample_rt; st_pd := warm_driver; st_msg := sample_msg |}
              (round_at (3600 * Second) (Pipe.setWriteReady ready_pipe false)
                        Pipe.time_After)
              sample_rt warm_driver []) as [_ H].
  - reflexivity.
  - discriminate.
  - eexists. eexists. split; [reflexivity|].
    eapply H. reflexivity.
Defined.

(** X18.  Nothing checks that an upstream is configured: on a driver
    without upstreams, with an empty pool and room for a primary pipe (a
    driver made by [NewDriver] from an empty list is one), [loadPipes]
    panics when it asks [selectUpstream] for an upstream, and with it the
    first turn of a request. *)
Theorem Driver_without_upstream_crashes (rt : Runtime) (pd : PipeDriverImpl)
    (msg : Msg) (entry : Z) (rd : Round) (rounds : list Round) :
  upstreams pd = [] -> pipes pd = [] -> primaryLoading pd < primaryLimit pd ->
  rd_callbacks rd = [] ->
  loadPipes rt pd = Panic /\
  process rt pd msg entry (rd :: rounds) = Crashed.
Proof.
  intros Hups Hpipes Hroom Hcb.
  assert (Hload : loadPipes rt pd = Panic).
  { unfold loadPipes, countPipes. rewrite Hpipes. simpl fold_left. cbv iota beta.
    rewrite decide_True by reflexivity.
    destruct (Z.to_nat (primaryLimit pd - primaryLoading pd)) as [|n] eqn:En; [lia|].
    simpl spawn. unfold selectUpstream. rewrite Hups. reflexivity. }
  split; [exact Hload|].
  unfold process. simpl process_loop. unfold process_turn. simpl st_msg.
  destruct (Question msg); [reflexivity|].
  simpl st_rt. simpl st_pd. rewrite Hcb. simpl run_callbacks. cbv iota beta.
  rewrite (pick_empty rt pd Hpipes), Hload. reflexivity.
Qed.

Lemma Driver_without_upstream_crashes_witness :
  process sample_rt (NewDriver []) sample_msg 0 cold_rounds = Crashed.
Proof.
  apply (Driver_without_upstream_crashes sample_rt (NewDriver []) sample_msg 0
           (round_at 0 ready_pipe Pipe.time_After) (tl cold_rounds));
    reflexivity.
Defined.

End DriverRequests.

(** ** The upstream list of the setup *)

Section Upstreams.

Variable Atoi : string -> Z + error.

Lemma strings_Split_nonempty (sep : ascii) (s : string) : strings_Split s sep <> [].
Proof.
  destruct s as [|c s]; simpl; [discriminate|].
  destruct (Ascii.eqb c sep); [discriminate|].
  destruct (strings_Split s sep); discriminate.
Qed.

Lemma occurrences_app (sep : ascii) (h t : string) :
  occurrences sep (String.append h t) = (occurrences sep h + occurrences sep t)%nat.
Proof. induction h as [|c h IH]; simpl; [reflexivity|]. rewrite IH. lia. Qed.

(** The first piece of a split has no separator; it is the whole string
    when it is the only piece, and otherwise the separator and the string
    of the other pieces follow it. *)
Lemma strings_Split_head (sep : ascii) (s : string) :
  forall (h : string) (rest : list string),
    strings_Split s sep = h :: rest ->
    occurrences sep h = 0%nat /\
    (rest = [] -> s = h) /\
    (rest <> [] ->
     exists s', s = String.append h (String sep s') /\ strings_Split s' sep = rest).
Proof.
  induction s as [|c s IH]; intros h rest H; simpl in H.
  - injection H as <- <-. split; [reflexivity|]. split; [reflexivity | congruence].
  - destruct (Ascii.eqb c sep) eqn:Ec.
    + injection H as <- <-. apply Ascii.eqb_eq in Ec as ->.
      split; [reflexivity|]. split.
      * intros E. exfalso. eapply strings_Split_nonempty; eauto.
      * intros _. exists s. split; reflexivity.
    + destruct (strings_Split s sep) as [|x xs] eqn:Es.
      { exfalso. eapply strings_Split_nonempty; eauto. }
      injection H as <- <-.
      destruct (IH x xs eq_refl) as (Ho & Hone & Hmore).
      split; [simpl; rewrite Ec, Ho; reflexivity|]. split.
      * intros E. rewrite (Hone E). reflexivity.
      * intros E. destruct (Hmore E) as (s' & -> & Hs'). exists s'. split; [reflexivity|exact Hs'].
Qed.

Lemma strings_Split_none (sep : ascii) (s : string) :
  occurrences sep s = 0%nat -> strings_Split s sep = [s].
Proof.
  induction s as [|c s IH]; simpl; [reflexivity|].
  destruct (Ascii.eqb c sep); [discriminate|]. simpl. intros H. rewrite (IH H). reflexivity.
Qed.

Lemma strings_Split_cons (sep : ascii) (h t : string) :
  occurrences sep h = 0%nat ->
  strings_Split (String.append h (String sep t)) sep = h :: strings_Split t sep.
Proof.
  induction h as [|c h IH]; simpl.
  - intros _. rewrite Ascii.eqb_refl. reflexivity.
  - destruct (Ascii.eqb c sep); [discriminate|]. simpl. intros H. rewrite (IH H). reflexivity.
Qed.

Lemma ConnConfig_eta (cfg : ConnConfig) :
  {| Hostname := Hostname cfg; Port := Port cfg |} = cfg.
Proof. destruct cfg. reflexivity. Qed.

(** A text that [convertUpstreams] accepts has at most one colon. *)
Lemma parses_to_colons (u : string) (cfg : ConnConfig) :
  parses_to Atoi u cfg -> (occurrences ":" u <= 1)%nat.
Proof.
  intros [Hh [[-> _]|(t & -> & Ht & _)]]; [lia|].
  rewrite occurrences_app. simpl. lia.
Qed.

(** The loop of [convertUpstreams], from any value of the named result. *)
Lemma convertUpstreams_from_spec (ups : list string) :
  forall acc : list ConnConfig,
    (forall res, convertUpstreams_from Atoi acc ups = (res, None) ->
       exists new, res = acc ++ new /\ Forall2 (parses_to Atoi) ups new) /\
    (forall res err, convertUpstreams_from Atoi acc ups = (res, Some err) ->
       res = [] /\
       (err = errorsNew "upstream parsing failed" \/ exists t, Atoi t = inr err)).
Proof.
  induction ups as [|u ups IH]; intros acc.
  - simpl. split.
    + intros res H. injection H as <-. exists []. rewrite app_nil_r. split; [reflexivity|constructor].
    + intros res err H. discriminate.
  - simpl convertUpstreams_from.
    destruct (strings_Split u ":") as [|host rest] eqn:Es.
    { exfalso. eapply strings_Split_nonempty; eauto. }
    destruct (strings_Split_head ":" u host rest Es) as (Hh & Hone & Hmore).
    destruct rest as [|portText rest].
    + (* one piece *)
      simpl. specialize (Hone eq_refl). subst u.
      destruct (IH (acc ++ [ {| Hostname := host; Port := 53 |} ])) as [IHok IHerr].
      split.
      * intros res H. destruct (IHok res H) as (new & -> & HF).
        exists ({| Hostname := host; Port := 53 |} :: new).
        rewrite <- app_assoc. split; [reflexivity|].
        constructor; [|exact HF]. split; [exact Hh|]. left. split; reflexivity.
      * exact IHerr.
    + destruct (Hmore ltac:(discriminate)) as (s' & -> & Hs').
      destruct (strings_Split_head ":" s' portText rest Hs') as (Hp & Hpone & _).
      destruct rest as [|x rest].
      * (* two pieces *)
        simpl. specialize (Hpone eq_refl). subst s'.
        destruct (Atoi portText) as [port|e] eqn:Ea.
        -- destruct (IH (acc ++ [ {| Hostname := host; Port := port |} ])) as [IHok IHerr].
           split; [|exact IHerr].
           intros res H. destruct (IHok res H) as (new & -> & HF).
           exists ({| Hostname := host; Port := port |} :: new).
           rewrite <- app_assoc. split; [reflexivity|].
           constructor; [|exact HF]. split; [exact Hh|]. right.
           exists portText. repeat split; assumption.
        -- split; [discriminate|].
           intros res err H. injection H as <- <-. split; [reflexivity|]. right. eauto.
      * (* three pieces or more *)
        simpl. split; [discriminate|].
        intros res err H. injection H as <- <-. split; [reflexivity|]. left. reflexivity.
Qed.

Lemma convertUpstreams_from_accepts (ups : list string) (new : list ConnConfig) :
  Forall2 (parses_to Atoi) ups new ->
  forall acc, convertUpstreams_from Atoi acc ups = (acc ++ new, None).
Proof.
  induction 1 as [|u c ups new Hu _ IH]; intros acc.
  - simpl. rewrite app_nil_r. reflexivity.
  - simpl convertUpstreams_from.
    destruct Hu as [Hh [[-> Hport]|(t & -> & Ht & Ha)]].
    + rewrite (strings_Split_none ":" (Hostname c) Hh). simpl.
      rewrite IH, <- app_assoc. simpl. rewrite <- Hport, ConnConfig_eta. reflexivity.
    + rewrite (strings_Split_cons ":" (Hostname c) t Hh).
      rewrite (strings_Split_none ":" t Ht). simpl. rewrite Ha.
      rewrite IH, <- app_assoc. simpl. rewrite ConnConfig_eta. reflexivity.
Qed.

(** X19.  [convertUpstreams] succeeds exactly on lists whose entries are
    a host without colon, which gets port 53, or a host and a port text
    joined by one colon, where [strconv.Atoi] reads the port; the result
    has one endpoint per entry, in order, and any integer that [Atoi]
    accepts is taken as the port.  On failure the result list is nil and
    the error is the parsing error or the error of [Atoi].  An entry with
    two or more colons, such as an IPv6 literal, makes it fail. *)
Theorem convertUpstreams_accepts (ups : list string) :
  (forall cfgs, convertUpstreams Atoi ups = (cfgs, None)
                <-> Forall2 (parses_to Atoi) ups cfgs) /\
  (forall cfgs err, convertUpstreams Atoi ups = (cfgs, Some err) ->
     cfgs = [] /\
     (err = errorsNew "upstream parsing failed" \/ exists t, Atoi t = inr err)) /\
  (forall u, u ∈ ups -> (2 <= occurrences ":" u)%nat ->
     exists err, convertUpstreams Atoi ups = ([], Some err)).
Proof.
  unfold convertUpstreams.
  destruct (convertUpstreams_from_spec ups []) as [Hok Herr].
  split; [|split].
  - intros cfgs. split.
    + intros H. destruct (Hok cfgs H) as (new & -> & HF). exact HF.
    + intros HF. apply (convertUpstreams_from_accepts ups cfgs HF []).
  - exact Herr.
  - intros u Hu Hocc.
    destruct (convertUpstreams_from Atoi [] ups) as [res [err|]] eqn:E.
    + destruct (Herr res err eq_refl) as [-> _]. eauto.
    + exfalso. destruct (Hok res eq_refl) as (new & _ & HF).
      apply list_elem_of_lookup in Hu as (i & Hi).
      destruct (Forall2_lookup_l _ _ _ _ _ HF Hi) as (c & _ & Hc).
      apply parses_to_colons in Hc. lia.
Qed.

End Upstreams.

(** A host alone and a host with a port are accepted; an IPv6 literal with
    a port is not. *)
Lemma convertUpstreams_accepts_witness :
  convertUpstreams sample_Atoi ["8.8.8.8"%string; "1.1.1.1:5353"%string]
  = ([ {| Hostname := "8.8.8.8"; Port := 53 |};
       {| Hostname := "1.1.1.1"; Port := 5353 |} ], None) /\
  exists err, convertUpstreams sample_Atoi ["[::1]:53"%string] = ([], Some err).
Proof.
  split.
  - apply (convertUpstreams_accepts sample_Atoi).
    constructor; [split; [reflexivity | left; split; reflexivity]|].
    constructor; [|constructor].
    split; [reflexivity|]. right. exists "5353"%string. repeat split.
  - destruct (convertUpstreams_accepts sample_Atoi ["[::1]:53"%string]) as (_ & _ & H).
    apply (H "[::1]:53"%string); [left | simpl; lia].
Defined.
